(** * Day 8 (Playground): the spatial connectivity engine of day08.py

    A shallow embedding of [src/day08/day08.py]: the union-find structure
    [DisjointSet] (path compression, union by rank, component sizes), the
    loader [parse_coordinates], the distance ranking and the two drivers
    [part1] and [part2].

    Python lists are modelled as Rocq lists read with [!!] and updated with
    [<[i:=v]>]; a subscript out of range raises [IndexError].  Exceptions are
    values of the error monad [result].  Indices are natural numbers: the
    drivers only ever subscript with values produced by [range]. *)

From stdpp Require Import base tactics option list numbers strings sorting
  relations.
From Stdlib Require Import ZArith Lia Sorted Permutation Ascii.

Local Open Scope Z_scope.
Local Open Scope nat_scope.

(** ** Exceptions and the error monad *)

Inductive exn : Type :=
  | ValueError
  | IndexError
  | OverflowError
  | RecursionError.

Inductive result (A : Type) : Type :=
  | Ok (a : A)
  | Raise (e : exn).
Arguments Ok {A} a.
Arguments Raise {A} e.

Global Instance result_ret : MRet result := λ A a, Ok a.
Global Instance result_bind : MBind result := λ A B f m,
  match m with
  | Ok a => f a
  | Raise e => Raise e
  end.

(** [l[i]] and [l[i] = v] on a Python list. *)
Definition getitem {A} (l : list A) (i : nat) : result A :=
  match l !! i with
  | Some a => Ok a
  | None => Raise IndexError
  end.

Definition setitem {A} (l : list A) (i : nat) (v : A) : result (list A) :=
  if decide (i < length l) then Ok (<[i:=v]> l) else Raise IndexError.

Global Arguments getitem : simpl never.
Global Arguments setitem : simpl never.

(** ** The disjoint-set structure *)

Record DisjointSet : Type := mkDisjointSet {
  parent : list nat;
  rank : list nat;
  size : list nat
}.

(** [DisjointSet.__init__]. *)
Definition DisjointSet_init (n : nat) : DisjointSet :=
  {| parent := seq 0 n; rank := replicate n 0; size := replicate n 1 |}.

Definition set_parent (ds : DisjointSet) (p : list nat) : DisjointSet :=
  {| parent := p; rank := rank ds; size := size ds |}.

(** [DisjointSet.find].  The recursion of the source is bounded by [fuel];
    running out of it is Python's [RecursionError]. *)
Fixpoint find_rec (fuel : nat) (ds : DisjointSet) (x : nat)
    : result (DisjointSet * nat) :=
  match fuel with
  | O => Raise RecursionError
  | S fuel =>
      px ← getitem (parent ds) x;
      if bool_decide (px ≠ x) then
        '(ds, r) ← find_rec fuel ds px;
        p ← setitem (parent ds) x r;
        let ds := set_parent ds p in
        px ← getitem (parent ds) x;
        Ok (ds, px)
      else
        px ← getitem (parent ds) x;
        Ok (ds, px)
  end.

(** A parent chain without repetition visits at most [length parent] nodes,
    so this much fuel is never exhausted on a well-formed structure
    (lemma [find_spec] below). *)
Definition find (ds : DisjointSet) (x : nat) : result (DisjointSet * nat) :=
  find_rec (S (length (parent ds))) ds x.
Global Arguments find : simpl never.

(** [DisjointSet.union]. *)
Definition union (ds : DisjointSet) (x y : nat) : result (DisjointSet * bool) :=
  '(ds, root_x) ← find ds x;
  '(ds, root_y) ← find ds y;
  if bool_decide (root_x = root_y) then Ok (ds, false)
  else
    rkx ← getitem (rank ds) root_x;
    rky ← getitem (rank ds) root_y;
    let '(root_x, root_y) :=
      if bool_decide (rkx < rky) then (root_y, root_x) else (root_x, root_y) in
    p ← setitem (parent ds) root_y root_x;
    sx ← getitem (size ds) root_x;
    sy ← getitem (size ds) root_y;
    sz ← setitem (size ds) root_x (sx + sy);
    rkx ← getitem (rank ds) root_x;
    rky ← getitem (rank ds) root_y;
    rk ← (if bool_decide (rkx = rky) then setitem (rank ds) root_x (rkx + 1)
          else Ok (rank ds));
    Ok ({| parent := p; rank := rk; size := sz |}, true).

(** ** Roots and well-formedness *)

(** [path_to_root p x r]: following the parent pointers [p] from [x] ends at
    the self-parented node [r]. *)
Inductive path_to_root (p : list nat) : nat → nat → Prop :=
  | ptr_root r : p !! r = Some r → path_to_root p r r
  | ptr_step x px r :
      p !! x = Some px → px ≠ x → path_to_root p px r → path_to_root p x r.

(** [on_path p x v]: [v] is visited when following the parent pointers from
    [x], the root excluded. *)
Inductive on_path (p : list nat) : nat → nat → Prop :=
  | on_path_here x px : p !! x = Some px → px ≠ x → on_path p x x
  | on_path_next x px v :
      p !! x = Some px → px ≠ x → on_path p px v → on_path p x v.

(** Number of indices below [n] that [rt] sends to [r]. *)
Definition count_root (rt : nat → nat) (n r : nat) : nat :=
  length (filter (λ x, rt x = r) (seq 0 n)).

(** Well-formedness, relative to the function [rt] that names the root of
    every index. *)
Record wf_with (rt : nat → nat) (ds : DisjointSet) : Prop := {
  wf_len_rank : length (rank ds) = length (parent ds);
  wf_len_size : length (size ds) = length (parent ds);
  wf_rt : ∀ x, x < length (parent ds) → path_to_root (parent ds) x (rt x);
  wf_rank_incr : ∀ x px,
    parent ds !! x = Some px → px ≠ x → rank ds !!! x < rank ds !!! px;
  wf_rank_bound : ∀ x,
    x < length (parent ds) → rank ds !!! x < length (parent ds);
  wf_rank_size : ∀ r,
    parent ds !! r = Some r → rank ds !!! r < size ds !!! r;
  wf_size_count : ∀ r,
    parent ds !! r = Some r →
    size ds !!! r = count_root rt (length (parent ds)) r
}.

Definition wf (ds : DisjointSet) : Prop := ∃ rt, wf_with rt ds.

(** The states reachable from [DisjointSet(n)] by [find] and [union] calls
    that return. *)
Inductive reachable (n : nat) : DisjointSet → Prop :=
  | reach_init : reachable n (DisjointSet_init n)
  | reach_find ds x ds' r :
      reachable n ds → find ds x = Ok (ds', r) → reachable n ds'
  | reach_union ds x y ds' b :
      reachable n ds → union ds x y = Ok (ds', b) → reachable n ds'.

(** ** Path compression keeps every root *)

Definition rank_ok (p rk : list nat) : Prop :=
  ∀ x px, p !! x = Some px → px ≠ x → rk !!! x < rk !!! px.

(** ** Linking two roots *)

(** The state [union] produces when it merges: [small] is attached under
    [big], on top of the compressed parent list [p]. *)
Definition link (ds : DisjointSet) (p : list nat) (big small : nat)
    : DisjointSet :=
  {| parent := <[small:=big]> p;
     rank := if decide (rank ds !!! big = rank ds !!! small)
             then <[big:=rank ds !!! big + 1]> (rank ds) else rank ds;
     size := <[big:=size ds !!! big + size ds !!! small]> (size ds) |}.

Definition relink (rt : nat → nat) (big small : nat) : nat → nat :=
  λ z, if decide (rt z = small) then big else rt z.

(** The pair (surviving root, absorbed root) that [union] picks. *)
Definition pick (ds : DisjointSet) (rx ry : nat) : nat * nat :=
  if decide (rank ds !!! rx < rank ds !!! ry) then (ry, rx) else (rx, ry).

(** The root that [find] returns, the updated structure dropped. *)
Definition find_root (ds : DisjointSet) (x : nat) : option nat :=
  match find ds x with
  | Ok (_, r) => Some r
  | Raise _ => None
  end.

(** The sizes recorded at the current roots, as [part1] collects them. *)
Definition roots (ds : DisjointSet) : list nat :=
  filter (λ i, parent ds !! i = Some i) (seq 0 (length (parent ds))).

Definition root_sizes (ds : DisjointSet) : list nat :=
  (λ i, size ds !!! i) <$> roots ds.

(** States reached from [ds] by [find] calls only. *)
Inductive after_finds (ds : DisjointSet) : DisjointSet → Prop :=
  | af_refl : after_finds ds ds
  | af_step x ds1 r ds2 :
      after_finds ds ds1 → find ds1 x = Ok (ds2, r) → after_finds ds ds2.

(** ** Concrete structures used by the examples *)

(** [DisjointSet(4)] after [union(0,1)]. *)
Definition ds_pair : DisjointSet :=
  {| parent := [0; 0; 2; 3]; rank := [1; 0; 0; 0]; size := [2; 1; 1; 1] |}.

(** ... then [union(2,3)]. *)
Definition ds_pairs : DisjointSet :=
  {| parent := [0; 0; 2; 2]; rank := [1; 0; 1; 0]; size := [2; 1; 2; 1] |}.

(** ... then [union(0,2)]: the chain 3 -> 2 -> 0 and the leaf 1 -> 0. *)
Definition ds_chain : DisjointSet :=
  {| parent := [0; 0; 0; 2]; rank := [2; 0; 1; 0]; size := [4; 1; 2; 1] |}.

(** * The loader *)

Local Open Scope char_scope.

(** The line boundaries of [str.splitlines] among the code points below
    256.  A Python [str] is modelled as a [string] whose characters are code
    points below 256. *)
Definition is_linebreak (c : ascii) : bool :=
  let n := nat_of_ascii c in
  bool_decide (10 ≤ n ≤ 13 ∨ 28 ≤ n ≤ 30 ∨ n = 133).

(** The white space that [int] strips from a [str]: the ASCII white space
    (tab to carriage return, and the space) and, among the code points from
    128 to 255, the next-line character and the no-break space.  The
    separators 28 to 31 are not stripped: [int] rejects them. *)
Definition is_space (c : ascii) : bool :=
  let n := nat_of_ascii c in
  bool_decide (9 ≤ n ≤ 13 ∨ n = 32 ∨ n = 133 ∨ n = 160).

Definition is_digit (c : ascii) : bool :=
  let n := nat_of_ascii c in bool_decide (48 ≤ n ≤ 57).

Definition digit_value (c : ascii) : Z := Z.of_nat (nat_of_ascii c - 48).

Definition line_of (cur : list ascii) : string :=
  String.string_of_list_ascii (reverse cur).

(** [str.splitlines]: [cur] holds the characters of the current line, last
    one first.  A carriage return followed by a line feed is one boundary,
    and no empty last line is produced. *)
Fixpoint splitlines_from (cur : list ascii) (s : string) : list string :=
  match s with
  | EmptyString => match cur with [] => [] | _ => [line_of cur] end
  | String c s' =>
      if bool_decide (c = "013") then
        match s' with
        | String "010" s'' => line_of cur :: splitlines_from [] s''
        | _ => line_of cur :: splitlines_from [] s'
        end
      else if is_linebreak c then line_of cur :: splitlines_from [] s'
      else splitlines_from (c :: cur) s'
  end.

Definition splitlines (s : string) : list string := splitlines_from [] s.

(** [str.split(sep)] for a one-character separator. *)
Fixpoint split_from (sep : ascii) (cur : list ascii) (s : string)
    : list string :=
  match s with
  | EmptyString => [line_of cur]
  | String c s' =>
      if bool_decide (c = sep) then line_of cur :: split_from sep [] s'
      else split_from sep (c :: cur) s'
  end.

Definition split (s : string) (sep : ascii) : list string :=
  split_from sep [] s.

Fixpoint lstrip (l : list ascii) : list ascii :=
  match l with
  | c :: l' => if is_space c then lstrip l' else l
  | [] => []
  end.

Definition strip (l : list ascii) : list ascii :=
  reverse (lstrip (reverse (lstrip l))).

(** Decimal digits, with single underscores allowed between digits. *)
Fixpoint digits (acc : Z) (after_digit : bool) (l : list ascii) : option Z :=
  match l with
  | [] => if after_digit then Some acc else None
  | c :: l' =>
      if is_digit c then digits (10 * acc + digit_value c) true l'
      else if bool_decide (c = "_") then
        if after_digit then digits acc false l' else None
      else None
  end.

(** The number of digit characters of a literal. *)
Fixpoint count_digits (l : list ascii) : nat :=
  match l with
  | [] => 0
  | c :: l' => (if is_digit c then 1 else 0) + count_digits l'
  end.

(** The default of [sys.get_int_max_str_digits()]. *)
Definition max_str_digits : Z := 4300.

(** [int(s)] for a string [s]: surrounding white space, an optional sign,
    decimal digits; a literal of more than [max_str_digits] digits is
    rejected like one that is not a number. *)
Definition int (s : string) : result Z :=
  let l := strip (String.list_ascii_of_string s) in
  let v := match l with
           | "-" :: l' => Z.opp <$> digits 0 false l'
           | "+" :: l' => digits 0 false l'
           | _ => digits 0 false l
           end in
  match v with
  | Some z =>
      if bool_decide (max_str_digits < Z.of_nat (count_digits l))%Z
      then Raise ValueError
      else Ok z
  | None => Raise ValueError
  end.

(** A comprehension [[f(x) for x in l]] whose body can raise: evaluated
    left to right, the first exception ends it. *)
Fixpoint comprehension {A B} (f : A → result B) (l : list A)
    : result (list B) :=
  match l with
  | [] => Ok []
  | x :: l' => y ← f x; ys ← comprehension f l'; Ok (y :: ys)
  end.

(** [parse_coordinates]: a point is the tuple of the integers of its line,
    however many there are. *)
Definition parse_coordinates (data : string) : result (list (list Z)) :=
  comprehension (λ line, comprehension int (split line ","))
                (splitlines data).

Local Close Scope char_scope.

(** * Distances, ranking and the two drivers *)

(** [list.sort()]: Python sorts stably and compares with [<] only.  The
    model inserts every element before the first one that is not smaller,
    which gives the same list as any stable sort whenever [lt] is a strict
    weak order. *)

Section sorting.

Context {A : Type} (lt : A → A → bool).

Fixpoint insert_sorted (x : A) (l : list A) : list A :=
  match l with
  | [] => [x]
  | y :: l' => if lt y x then y :: insert_sorted x l' else x :: y :: l'
  end.

Definition sort (l : list A) : list A := foldr insert_sorted [] l.

(** [list.sort(reverse=True)] reverses, sorts stably, and reverses. *)
Definition sort_reverse (l : list A) : list A := reverse (sort (reverse l)).

(** [a] may stand before [b]: [b] is not smaller than [a]. *)
Definition not_after (a b : A) : Prop := lt b a = false.

End sorting.

(** The unordered pairs in the order of the two nested [range] loops. *)
Definition index_pairs (n : nat) : list (nat * nat) :=
  i ← seq 0 n; j ← seq (i + 1) (n - (i + 1)); [(i, j)].

(** The product of the three largest entries of a list of sizes. *)
Definition product_of_three_largest (circuit_sizes : list nat) : result nat :=
  let circuit_sizes := sort_reverse Nat.ltb circuit_sizes in
  a ← getitem circuit_sizes 0;
  b ← getitem circuit_sizes 1;
  c ← getitem circuit_sizes 2;
  Ok (a * b * c).

(** [[disjoint_set.size[i] for i in range(n) if disjoint_set.find(i) == i]];
    [find] compresses paths on the way. *)
Fixpoint circuit_sizes_from (indices : list nat) (ds : DisjointSet)
    : result (DisjointSet * list nat) :=
  match indices with
  | [] => Ok (ds, [])
  | i :: indices =>
      '(ds, r) ← find ds i;
      if bool_decide (r = i) then
        s ← getitem (size ds) i;
        '(ds, sizes) ← circuit_sizes_from indices ds;
        Ok (ds, s :: sizes)
      else circuit_sizes_from indices ds
  end.

Section drivers.

(** Python floats are a parameter: their type, the operation [n ** 0.5]
    on an integer [n] (which raises [OverflowError] when [n] is too large
    for a float) and the comparisons [==] and [<]. *)
Context {float : Type}.
Variable pow_half : Z → result float.
Variable float_eq float_lt : float → float → bool.

(** A candidate edge [(dist, i, j)]. *)
Definition edge : Type := float * nat * nat.

Definition endpoints (e : edge) : nat * nat := (e.1.2, e.2).

(** [euclidean_distance]. *)
Definition euclidean_distance (p1 p2 : list Z) : result float :=
  a0 ← getitem p1 0; b0 ← getitem p2 0;
  a1 ← getitem p1 1; b1 ← getitem p2 1;
  a2 ← getitem p1 2; b2 ← getitem p2 2;
  pow_half ((a0 - b0) ^ 2 + (a1 - b1) ^ 2 + (a2 - b2) ^ 2)%Z.

(** [<] on the tuples [(dist, i, j)]: the first components that are not
    [==] decide. *)
Definition edge_lt (a b : edge) : bool :=
  let '(d1, i1, j1) := a in
  let '(d2, i2, j2) := b in
  if float_eq d1 d2 then
    if bool_decide (i1 = i2) then bool_decide (j1 < j2)
    else bool_decide (i1 < i2)
  else float_lt d1 d2.

(** The two nested loops that fill [distances]. *)
Definition all_distances (coordinates : list (list Z))
    : result (list edge) :=
  comprehension
    (λ '(i, j),
       ci ← getitem coordinates i;
       cj ← getitem coordinates j;
       dist ← euclidean_distance ci cj;
       Ok (dist, i, j))
    (index_pairs (length coordinates)).

(** The ranked candidate edges: [distances] after [distances.sort()]. *)
Definition ranked_edges (coordinates : list (list Z))
    : result (list edge) :=
  distances ← all_distances coordinates;
  Ok (sort edge_lt distances).

(** The loop of [part1]; [threshold] is the literal 1000 of the source. *)
Fixpoint connect_attempts (threshold : nat) (distances : list edge)
    (ds : DisjointSet) (attempts : nat) : result DisjointSet :=
  match distances with
  | [] => Ok ds
  | (_, x, y) :: distances =>
      '(ds, _) ← union ds x y;
      let attempts := attempts + 1 in
      if bool_decide (attempts = threshold) then Ok ds
      else connect_attempts threshold distances ds attempts
  end.

Definition part1 (data : string) : result nat :=
  coordinates ← parse_coordinates data;
  let n := length coordinates in
  distances ← ranked_edges coordinates;
  ds ← connect_attempts 1000 distances (DisjointSet_init n) 0;
  '(_, circuit_sizes) ← circuit_sizes_from (seq 0 n) ds;
  product_of_three_largest circuit_sizes.

(** The loop of [part2]: [Some] is the value returned from inside the loop,
    [None] means the loop ran to its end. *)
Fixpoint connect_all (coordinates : list (list Z)) (distances : list edge)
    (ds : DisjointSet) (circuits : Z) : result (option Z) :=
  match distances with
  | [] => Ok None
  | (_, x, y) :: distances =>
      '(ds, merged) ← union ds x y;
      if (merged : bool) then
        let circuits := (circuits - 1)%Z in
        if bool_decide (circuits = 1%Z) then
          cx ← getitem coordinates x;
          x0 ← getitem cx 0;
          cy ← getitem coordinates y;
          y0 ← getitem cy 0;
          Ok (Some (x0 * y0)%Z)
        else connect_all coordinates distances ds circuits
      else connect_all coordinates distances ds circuits
  end.

Definition part2 (data : string) : result Z :=
  coordinates ← parse_coordinates data;
  let n := length coordinates in
  distances ← ranked_edges coordinates;
  r ← connect_all coordinates distances (DisjointSet_init n) (Z.of_nat n);
  match r with
  | Some v => Ok v
  | None => Ok (-1)%Z
  end.

(** The reference run the claims compare the drivers with: [union] on
    every edge of a list in turn, counting the calls that merge. *)
Fixpoint unions (es : list edge) (ds : DisjointSet)
    : result (DisjointSet * nat) :=
  match es with
  | [] => Ok (ds, 0)
  | (_, x, y) :: es =>
      '(ds, merged) ← union ds x y;
      '(ds, m) ← unions es ds;
      Ok (ds, if (merged : bool) then S m else m)
  end.

(** Every endpoint of [es] is an index below [n]. *)
Definition in_range (n : nat) (es : list edge) : Prop :=
  ∀ e : edge, e ∈ es → e.1.2 < n ∧ e.2 < n.

(** [e] is the candidate edge of the pair [(i, j)] of [coordinates]. *)
Definition edge_of (coordinates : list (list Z)) (e : edge) : Prop :=
  ∃ ci cj,
    coordinates !! (e.1.2) = Some ci ∧ coordinates !! (e.2) = Some cj ∧
    euclidean_distance ci cj = Ok (e.1.1).

(** The ranking contract in the words of the claim: [e1] comes before
    [e2] when its distance is smaller, or the distances are equal and its
    pair is earlier in the enumeration ([i] ascending, then [j]). *)
Definition ranked_before (e1 e2 : edge) : Prop :=
  float_lt (e1.1.1) (e2.1.1) = true ∨
  (float_eq (e1.1.1) (e2.1.1) = true ∧
   (e1.1.2 < e2.1.2 ∨ (e1.1.2 = e2.1.2 ∧ e1.2 < e2.2))).

End drivers.

(** The exact square root, as a stand-in for floats in the examples: the
    non-negative number [√z] is represented by [z], and two such numbers
    compare as their radicands do. *)
Definition exact_pow_half (z : Z) : result Z := Ok z.
Definition part1_exact : string → result nat :=
  part1 exact_pow_half Z.eqb Z.ltb.
Definition part2_exact : string → result Z :=
  part2 exact_pow_half Z.eqb Z.ltb.

(** ** Facts about the drivers' loops *)

Global Instance result_fmap : FMap result := λ A B f m,
  match m with
  | Ok a => Ok (f a)
  | Raise e => Raise e
  end.

(** Forty-six boxes in a row, one unit apart: 1035 candidate pairs, and the
    first 1000 ranked ones already join all the boxes. *)
Definition row_input : string := "0,0,0
1,0,0
2,0,0
3,0,0
4,0,0
5,0,0
6,0,0
7,0,0
8,0,0
9,0,0
10,0,0
11,0,0
12,0,0
13,0,0
14,0,0
15,0,0
16,0,0
17,0,0
18,0,0
19,0,0
20,0,0
21,0,0
22,0,0
23,0,0
24,0,0
25,0,0
26,0,0
27,0,0
28,0,0
29,0,0
30,0,0
31,0,0
32,0,0
33,0,0
34,0,0
35,0,0
36,0,0
37,0,0
38,0,0
39,0,0
40,0,0
41,0,0
42,0,0
43,0,0
44,0,0
45,0,0".

(** The same row with two boxes far away from it and from each other: the
    first 1000 ranked pairs all lie inside the row. *)
Definition row_and_two_input : string :=
  row_input +:+ "
1000,0,0
3000,0,0".

Definition four_input : string := "0,0,0
1,0,0
3,0,0
7,0,0".

Definition square_input : list (list Z) :=
  [[0; 0; 0]; [1; 0; 0]; [3; 0; 0]; [2; 0; 0]]%Z.

(** ** Further invariants *)

(** Union by rank: a root of rank [k] heads a set of at least [2 ^ k]
    elements. *)
Definition rank_log (ds : DisjointSet) : Prop :=
  ∀ r, parent ds !! r = Some r → 2 ^ (rank ds !!! r) ≤ size ds !!! r.

(** Three edges on four points, the second one joining what the first
    already joined. *)
Definition three_edges : list (@edge Z) :=
  [(5%Z, 0, 1); (5%Z, 1, 0); (7%Z, 2, 3)].

(** Two lines, the first with two fields only. *)
Definition short_line_input : string := "1,2
3,4,5".

(** ** The graph of a list of edges *)

(** [a] and [b] are the endpoints of an edge of [es]. *)
Definition joined {float} (es : list (@edge float)) (a b : nat) : Prop :=
  ∃ d, (d, a, b) ∈ es.

(** Every two of the points [0 .. n-1] are linked by a chain of edges of
    [es]. *)
Definition all_joined {float} (n : nat) (es : list (@edge float)) : Prop :=
  ∀ u v, u < n → v < n → rtsc (joined es) u v.

(** ** The Euclidean distance of the claims *)

(** The squared Euclidean distance of two points, in the words of the
    ranking claim: the sum of the squares of the differences of their
    [x], [y] and [z] coordinates. *)
Definition squared_distance (p q : list Z) : option Z :=
  x1 ← p !! 0; y1 ← p !! 1; z1 ← p !! 2;
  x2 ← q !! 0; y2 ← q !! 1; z2 ← q !! 2;
  Some ((x1 - x2) ^ 2 + (y1 - y2) ^ 2 + (z1 - z2) ^ 2)%Z.

(** The edge [e = (d, i, j)] carries the Euclidean distance of the points
    [i] and [j] of [coordinates]: [d] is the square root, as the float
    power [** 0.5] computes it, of their squared distance. *)
Definition edge_distance {float} (pow_half : Z → result float)
    (coordinates : list (list Z)) (e : @edge float) : Prop :=
  ∃ ci cj z,
    coordinates !! (e.1.2) = Some ci ∧ coordinates !! (e.2) = Some cj ∧
    squared_distance ci cj = Some z ∧ pow_half z = Ok (e.1.1).

(** * Theorems *)

(** ** Basic facts *)

Lemma getitem_Ok {A} (l : list A) i a : l !! i = Some a → getitem l i = Ok a.
Proof. intros H. unfold getitem. by rewrite H. Qed.

Lemma getitem_total `{!Inhabited A} (l : list A) i :
  i < length l → getitem l i = Ok (l !!! i).
Proof. intros H. apply getitem_Ok. by apply list_lookup_lookup_total_lt. Qed.

Lemma setitem_Ok {A} (l : list A) i v :
  i < length l → setitem l i v = Ok (<[i:=v]> l).
Proof. intros H. unfold setitem. by rewrite decide_True. Qed.

Ltac step_items :=
  repeat first
    [ rewrite getitem_total by lia
    | rewrite setitem_Ok by lia
    | progress cbn ].

Lemma path_to_root_is_root p x r : path_to_root p x r → p !! r = Some r.
Proof. induction 1; auto. Qed.

Lemma path_to_root_lt p x r : path_to_root p x r → x < length p.
Proof. destruct 1; eauto using lookup_lt_Some. Qed.

Lemma path_to_root_root_lt p x r : path_to_root p x r → r < length p.
Proof. intros H. eapply lookup_lt_Some, path_to_root_is_root, H. Qed.

Lemma path_to_root_det p x r1 r2 :
  path_to_root p x r1 → path_to_root p x r2 → r1 = r2.
Proof.
  induction 1 as [r Hr|x px r Hx Hne _ IH]; inversion 1; subst;
    try congruence.
  apply IH. congruence.
Qed.

Lemma path_to_root_of_root p r r' :
  p !! r = Some r → path_to_root p r r' → r' = r.
Proof. intros Hr H. eapply path_to_root_det; [exact H|by constructor]. Qed.

Lemma rank_ok_path p rk x r :
  rank_ok p rk → path_to_root p x r → x ≠ r → rk !!! x < rk !!! r.
Proof.
  intros Hok. induction 1 as [|x px r Hx Hne Hp IH]; [done|]. intros _.
  specialize (Hok _ _ Hx Hne).
  destruct (decide (px = r)) as [->|Hpr]; [done|].
  specialize (IH Hpr). lia.
Qed.

Lemma compress_one p x r :
  path_to_root p x r → x ≠ r →
  ∀ y r', path_to_root p y r' ↔ path_to_root (<[x:=r]> p) y r'.
Proof.
  intros Hx Hne y r'.
  assert (Hxlt : x < length p) by eauto using path_to_root_lt.
  assert (Hr : p !! r = Some r) by eauto using path_to_root_is_root.
  assert (Hxnr : p !! x ≠ Some x).
  { intros Hxx. apply Hne. symmetry. eauto using path_to_root_of_root. }
  split.
  - induction 1 as [y Hy|y py r' Hy Hpy Hp IH].
    + constructor. rewrite list_lookup_insert_ne; [done|congruence].
    + destruct (decide (x = y)) as [->|Hxy].
      * assert (r' = r) as ->.
        { eapply path_to_root_det; [|exact Hx]. by econstructor. }
        apply (ptr_step _ y r r); [by apply list_lookup_insert_eq|done|].
        constructor. by rewrite list_lookup_insert_ne.
      * apply (ptr_step _ y py r'); [|done|done].
        by rewrite list_lookup_insert_ne.
  - induction 1 as [y Hy|y py r' Hy Hpy Hp IH].
    + destruct (decide (x = y)) as [->|Hxy].
      * rewrite list_lookup_insert_eq in Hy by done. congruence.
      * rewrite list_lookup_insert_ne in Hy by done. by constructor.
    + destruct (decide (x = y)) as [->|Hxy].
      * rewrite list_lookup_insert_eq in Hy by done.
        assert (py = r) as -> by congruence.
        assert (r' = r) as -> by eauto using path_to_root_of_root.
        done.
      * rewrite list_lookup_insert_ne in Hy by done. by econstructor.
Qed.

Lemma on_path_inv p x px v :
  p !! x = Some px → on_path p x v → v = x ∨ on_path p px v.
Proof. intros Hx. inversion 1; subst; [by left|right; congruence]. Qed.

(** What one call of [find] does, given enough fuel. *)
Lemma find_rec_spec fuel ds x r :
  length (rank ds) = length (parent ds) →
  rank_ok (parent ds) (rank ds) →
  (∀ y, y < length (parent ds) → rank ds !!! y < length (parent ds)) →
  path_to_root (parent ds) x r →
  length (parent ds) ≤ fuel + rank ds !!! x →
  ∃ p',
    find_rec fuel ds x = Ok (set_parent ds p', r) ∧
    length p' = length (parent ds) ∧
    rank_ok p' (rank ds) ∧
    (∀ y r', path_to_root (parent ds) y r' ↔ path_to_root p' y r') ∧
    (∀ v, on_path (parent ds) x v → p' !! v = Some r) ∧
    (∀ v, ¬ on_path (parent ds) x v → p' !! v = parent ds !! v).
Proof.
  intros Hlen Hok Hbound.
  revert x. induction fuel as [|fuel IH]; intros x Hpath Hfuel.
  { apply path_to_root_lt in Hpath. specialize (Hbound _ Hpath). simpl in *. lia. }
  inversion Hpath as [r0 Hr|x0 px r0 Hx Hne Hp]; subst.
  - exists (parent ds). cbn [find_rec].
    rewrite (getitem_Ok _ _ _ Hr). cbn.
    rewrite ?bool_decide_false by (intros ?; done).
    rewrite ?(getitem_Ok _ _ _ Hr). cbn.
    destruct ds; cbn. repeat split; try done.
    intros v Hv. inversion Hv; subst; cbn in *; congruence.
  - assert (Hrk : rank ds !!! x < rank ds !!! px) by by apply Hok.
    destruct (IH px Hp) as (p1 & Hfind & Hlen1 & Hok1 & Hiff & Hon & Hoff); [lia|].
    assert (Hxr : x ≠ r).
    { intros ->. apply path_to_root_is_root in Hp. congruence. }
    assert (Hxlt : x < length p1).
    { rewrite Hlen1. eauto using lookup_lt_Some. }
    assert (Hpath1 : path_to_root p1 x r) by by apply Hiff.
    exists (<[x:=r]> p1). cbn [find_rec].
    rewrite (getitem_Ok _ _ _ Hx). cbn.
    rewrite bool_decide_true by done.
    rewrite Hfind. cbn.
    rewrite setitem_Ok by done. cbn.
    rewrite (getitem_Ok _ _ r) by by apply list_lookup_insert_eq.
    simpl. repeat split.
    + by rewrite length_insert.
    + intros y py Hy Hpy.
      destruct (decide (x = y)) as [->|Hxy].
      * rewrite list_lookup_insert_eq in Hy by done. simplify_eq.
        eapply rank_ok_path; eauto.
      * rewrite list_lookup_insert_ne in Hy by done. by apply Hok1.
    + intros Hy. apply compress_one; [done..|]. by apply Hiff.
    + intros Hy. apply Hiff. eapply compress_one; eauto.
    + intros v Hv. destruct (on_path_inv _ _ _ _ Hx Hv) as [->|Hv'].
      * by apply list_lookup_insert_eq.
      * destruct (decide (x = v)) as [->|Hxv];
          [by apply list_lookup_insert_eq|].
        rewrite list_lookup_insert_ne by done. by apply Hon.
    + intros v Hv.
      assert (x ≠ v) by (intros ->; apply Hv; by econstructor).
      rewrite list_lookup_insert_ne by done. apply Hoff.
      intros Hv'. apply Hv. by eapply on_path_next.
Qed.

Lemma same_paths_same_roots p p' :
  (∀ y r, path_to_root p y r ↔ path_to_root p' y r) →
  ∀ r, p !! r = Some r ↔ p' !! r = Some r.
Proof.
  intros Hiff r; split; intros Hr.
  - eapply path_to_root_is_root, Hiff. by constructor.
  - eapply path_to_root_is_root, Hiff. by constructor.
Qed.

Lemma wf_with_set_parent rt ds p' :
  wf_with rt ds →
  length p' = length (parent ds) →
  rank_ok p' (rank ds) →
  (∀ y r, path_to_root (parent ds) y r ↔ path_to_root p' y r) →
  wf_with rt (set_parent ds p').
Proof.
  intros [] Hlen Hok Hiff.
  pose proof (same_paths_same_roots _ _ Hiff) as Hroots.
  split; cbn; rewrite ?Hlen; auto.
  - intros x Hx. apply Hiff. auto.
  - intros r Hr. apply Hroots in Hr. auto.
  - intros r Hr. apply Hroots in Hr. auto.
Qed.

(** [find] on a well-formed structure: it returns, with the root of [x],
    and only compresses the path of [x]. *)
Lemma find_spec rt ds x :
  wf_with rt ds → x < length (parent ds) →
  ∃ p',
    find ds x = Ok (set_parent ds p', rt x) ∧
    wf_with rt (set_parent ds p') ∧
    length p' = length (parent ds) ∧
    (∀ y r, path_to_root (parent ds) y r ↔ path_to_root p' y r) ∧
    (∀ v, on_path (parent ds) x v → p' !! v = Some (rt x)) ∧
    (∀ v, ¬ on_path (parent ds) x v → p' !! v = parent ds !! v).
Proof.
  intros Hwf Hx.
  destruct (find_rec_spec (S (length (parent ds))) ds x (rt x))
    as (p' & Hfind & Hlen & Hok & Hiff & Hon & Hoff).
  - apply Hwf.
  - intros ??. apply Hwf.
  - apply Hwf.
  - by apply Hwf.
  - lia.
  - exists p'. split; [done|]. split; [by apply wf_with_set_parent|].
    repeat split; try done; apply Hiff.
Qed.

Lemma link_path p big small z r :
  p !! big = Some big → p !! small = Some small → big ≠ small →
  path_to_root p z r →
  path_to_root (<[small:=big]> p) z (if decide (r = small) then big else r).
Proof.
  intros Hbig Hsmall Hne.
  assert (Hlt : small < length p) by eauto using lookup_lt_Some.
  assert (Hbig' : path_to_root (<[small:=big]> p) big big).
  { constructor. by rewrite list_lookup_insert_ne. }
  induction 1 as [r Hr|z pz r Hz Hpz Hp IH].
  - case_decide as Hrs.
    + subst r. apply (ptr_step _ small big big); [|done|done].
      by apply list_lookup_insert_eq.
    + constructor. by rewrite list_lookup_insert_ne.
  - apply (ptr_step _ z pz); [|done|done].
    rewrite list_lookup_insert_ne; [done|]. intros <-. congruence.
Qed.

Lemma count_relink (rt : nat → nat) big small (l : list nat) :
  big ≠ small →
  length (filter (λ z, relink rt big small z = big) l) =
  length (filter (λ z, rt z = big) l) + length (filter (λ z, rt z = small) l).
Proof.
  intros Hne. unfold relink.
  induction l as [|a l IH]; [done|].
  rewrite !filter_cons.
  repeat case_decide; simplify_eq; cbn; lia.
Qed.

Lemma count_relink_other (rt : nat → nat) big small r (l : list nat) :
  r ≠ big → r ≠ small →
  length (filter (λ z, relink rt big small z = r) l) =
  length (filter (λ z, rt z = r) l).
Proof.
  intros Hb Hs. unfold relink.
  induction l as [|a l IH]; [done|].
  rewrite !filter_cons.
  repeat case_decide; simplify_eq; cbn; lia.
Qed.

Lemma count_two_le (rt : nat → nat) a b (l : list nat) :
  a ≠ b →
  length (filter (λ z, rt z = a) l) + length (filter (λ z, rt z = b) l)
  ≤ length l.
Proof.
  intros Hne. induction l as [|c l IH]; [done|].
  rewrite !filter_cons.
  repeat case_decide; simplify_eq; cbn; lia.
Qed.

Lemma wf_rt_root rt ds r :
  wf_with rt ds → parent ds !! r = Some r → rt r = r.
Proof.
  intros Hwf Hr. eapply path_to_root_of_root; [done|].
  apply Hwf. eauto using lookup_lt_Some.
Qed.

Lemma wf_rt_is_root rt ds x :
  wf_with rt ds → x < length (parent ds) → parent ds !! rt x = Some (rt x).
Proof. intros Hwf Hx. eapply path_to_root_is_root. by apply Hwf. Qed.

Lemma wf_rt_lt rt ds x :
  wf_with rt ds → x < length (parent ds) → rt x < length (parent ds).
Proof. intros Hwf Hx. eapply lookup_lt_Some, wf_rt_is_root; eauto. Qed.

Lemma wf_link rt ds big small :
  wf_with rt ds →
  parent ds !! big = Some big → parent ds !! small = Some small →
  big ≠ small → rank ds !!! small ≤ rank ds !!! big →
  wf_with (relink rt big small) (link ds (parent ds) big small).
Proof.
  intros Hwf Hbig Hsmall Hne Hrk.
  pose proof Hwf as [Hlr Hls Hrt Hincr Hbound Hrs Hcount].
  assert (Hbl : big < length (parent ds)) by eauto using lookup_lt_Some.
  assert (Hsl : small < length (parent ds)) by eauto using lookup_lt_Some.
  pose proof (Hrs _ Hbig) as Hrsb. pose proof (Hrs _ Hsmall) as Hrss.
  pose proof (Hcount _ Hbig) as Hcb. pose proof (Hcount _ Hsmall) as Hcs.
  assert (Hsum : size ds !!! big + size ds !!! small ≤ length (parent ds)).
  { rewrite Hcb, Hcs. unfold count_root.
    etrans; [by apply count_two_le|]. by rewrite length_seq. }
  assert (Hroot' : ∀ r, <[small:=big]> (parent ds) !! r = Some r →
                        parent ds !! r = Some r ∧ r ≠ small).
  { intros r Hr. destruct (decide (r = small)) as [->|Hrs'].
    - rewrite list_lookup_insert_eq in Hr by done. congruence.
    - by rewrite list_lookup_insert_ne in Hr by done. }
  assert (Hrank' : ∀ z, z ≠ big → rank (link ds (parent ds) big small) !!! z
                                   = rank ds !!! z).
  { intros z Hz. cbn. case_decide; [|done].
    by rewrite list_lookup_total_insert_ne. }
  assert (Hrankb : rank ds !!! big ≤ rank (link ds (parent ds) big small) !!! big
                   ∧ rank (link ds (parent ds) big small) !!! big
                     ≤ rank ds !!! big + 1
                   ∧ rank ds !!! small < rank (link ds (parent ds) big small) !!! big).
  { cbn. case_decide.
    - rewrite list_lookup_total_insert_eq by lia. lia.
    - lia. }
  split.
  - cbn. case_decide; by rewrite ?length_insert.
  - cbn. by rewrite !length_insert.
  - cbn. rewrite length_insert. intros x Hx.
    unfold relink. by apply link_path; [..|apply Hrt].
  - intros z pz Hz Hpz. cbn [parent link] in Hz.
    destruct (decide (z = small)) as [->|Hzs].
    + rewrite list_lookup_insert_eq in Hz by done. simplify_eq.
      rewrite Hrank' by done. lia.
    + rewrite list_lookup_insert_ne in Hz by done.
      assert (z ≠ big) by congruence.
      rewrite Hrank' by done. specialize (Hincr _ _ Hz Hpz).
      destruct (decide (pz = big)) as [->|Hpb]; [lia|].
      by rewrite Hrank'.
  - cbn [parent link]. rewrite length_insert. intros z Hz.
    destruct (decide (z = big)) as [->|Hzb].
    + lia.
    + rewrite Hrank' by done. auto.
  - intros r Hr. apply Hroot' in Hr as [Hr Hrs'].
    destruct (decide (r = big)) as [->|Hrb].
    + cbn [size link]. rewrite list_lookup_total_insert_eq by lia. lia.
    + rewrite Hrank' by done. cbn [size link].
      rewrite list_lookup_total_insert_ne by done. auto.
  - intros r Hr. apply Hroot' in Hr as [Hr Hrs'].
    cbn [size parent link]. rewrite length_insert. unfold count_root.
    destruct (decide (r = big)) as [->|Hrb].
    + rewrite list_lookup_total_insert_eq by lia.
      rewrite count_relink by done. by rewrite Hcb, Hcs.
    + rewrite list_lookup_total_insert_ne by done.
      rewrite count_relink_other by done. auto.
Qed.

(** [union] on a well-formed structure. *)
Lemma union_spec rt ds x y :
  wf_with rt ds → x < length (parent ds) → y < length (parent ds) →
  ∃ p2,
    length p2 = length (parent ds) ∧
    (∀ z r, path_to_root (parent ds) z r ↔ path_to_root p2 z r) ∧
    wf_with rt (set_parent ds p2) ∧
    if decide (rt x = rt y) then
      union ds x y = Ok (set_parent ds p2, false)
    else
      union ds x y
        = Ok (link ds p2 (pick ds (rt x) (rt y)).1 (pick ds (rt x) (rt y)).2,
              true) ∧
      wf_with (relink rt (pick ds (rt x) (rt y)).1 (pick ds (rt x) (rt y)).2)
              (link ds p2 (pick ds (rt x) (rt y)).1 (pick ds (rt x) (rt y)).2).
Proof.
  intros Hwf Hx Hy.
  destruct (find_spec rt ds x Hwf Hx) as (p1 & Hf1 & Hwf1 & Hl1 & Hiff1 & _ & _).
  destruct (find_spec rt (set_parent ds p1) y Hwf1) as
    (p2 & Hf2 & Hwf2 & Hl2 & Hiff2 & _ & _); [cbn; lia|].
  cbn in Hl2, Hiff2, Hf2, Hwf2.
  change (set_parent (set_parent ds p1) p2) with (set_parent ds p2) in *.
  exists p2. split; [lia|]. split.
  { intros z r. rewrite Hiff1. apply Hiff2. }
  split; [done|].
  assert (Hrx : p2 !! rt x = Some (rt x)).
  { apply (wf_rt_is_root rt (set_parent ds p2)); [done|cbn; lia]. }
  assert (Hry : p2 !! rt y = Some (rt y)).
  { apply (wf_rt_is_root rt (set_parent ds p2)); [done|cbn; lia]. }
  assert (Hrxl : rt x < length (parent ds)).
  { apply lookup_lt_Some in Hrx. lia. }
  assert (Hryl : rt y < length (parent ds)).
  { apply lookup_lt_Some in Hry. lia. }
  pose proof (wf_len_rank _ _ Hwf) as Hlr.
  pose proof (wf_len_size _ _ Hwf) as Hls.
  unfold union. rewrite Hf1. cbn. rewrite Hf2. cbn.
  case_decide as Heq.
  { by rewrite bool_decide_true. }
  rewrite bool_decide_false by done.
  step_items.
  unfold pick. case_decide as Hlt; cbn [fst snd];
    (split; [|apply (wf_link rt (set_parent ds p2)); cbn; auto; lia]);
    unfold link.
  - rewrite bool_decide_true by done. step_items.
    rewrite bool_decide_false by lia. by rewrite decide_False by lia.
  - rewrite bool_decide_false by done. step_items.
    case_bool_decide.
    + rewrite decide_True by done. by step_items.
    + by rewrite decide_False by done.
Qed.

(** ** The fresh structure and the reachable ones *)

Lemma count_self_seq r s n :
  length (filter (λ x, x = r) (seq s n)) =
  if decide (s ≤ r < s + n) then 1 else 0.
Proof.
  revert s. induction n as [|n IH]; intros s.
  { cbn. case_decide; [lia|done]. }
  rewrite <- cons_seq, filter_cons.
  destruct (decide (s = r)); cbn [length]; rewrite IH;
    repeat case_decide; lia.
Qed.

Lemma wf_init n : wf_with id (DisjointSet_init n).
Proof.
  split; cbn; rewrite ?length_seq, ?length_replicate; try done.
  - intros x Hx. constructor. by rewrite lookup_seq_lt.
  - intros x px Hx Hne. apply lookup_seq in Hx. cbn in Hx. lia.
  - intros x Hx. rewrite lookup_total_replicate_2 by done. lia.
  - intros r Hr. apply lookup_seq in Hr as [_ Hr].
    rewrite !lookup_total_replicate_2 by done. lia.
  - intros r Hr. apply lookup_seq in Hr as [_ Hr].
    rewrite lookup_total_replicate_2 by done.
    unfold count_root, id. rewrite count_self_seq.
    by rewrite decide_True by lia.
Qed.

Lemma find_Ok_lt ds x ds' r :
  find ds x = Ok (ds', r) → x < length (parent ds).
Proof.
  unfold find. cbn [find_rec].
  destruct (parent ds !! x) eqn:Hx; [intros _; eauto using lookup_lt_Some|].
  unfold getitem. rewrite Hx. done.
Qed.

Lemma union_Ok_lt rt ds x y ds' b :
  wf_with rt ds → union ds x y = Ok (ds', b) →
  x < length (parent ds) ∧ y < length (parent ds).
Proof.
  intros Hwf. unfold union.
  destruct (find ds x) as [[ds1 rx]|] eqn:Hf1; [|done]. cbn.
  pose proof (find_Ok_lt _ _ _ _ Hf1) as Hx.
  destruct (find_spec rt ds x Hwf Hx) as (p1 & Hf1' & _ & Hl1 & _).
  rewrite Hf1 in Hf1'. simplify_eq.
  destruct (find (set_parent ds p1) y) as [[ds2 ry]|] eqn:Hf2; [|done].
  apply find_Ok_lt in Hf2. cbn in Hf2. intros _. lia.
Qed.

Lemma reachable_wf n ds :
  reachable n ds → wf ds ∧ length (parent ds) = n.
Proof.
  induction 1 as [|ds x ds' r _ [[rt Hwf] Hn] Hf
                  |ds x y ds' b _ [[rt Hwf] Hn] Hu].
  - split; [eexists; apply wf_init|]. cbn. by rewrite length_seq.
  - pose proof (find_Ok_lt _ _ _ _ Hf) as Hx.
    destruct (find_spec rt ds x Hwf Hx) as (p' & Hf' & Hwf' & Hl & _).
    rewrite Hf in Hf'. simplify_eq. split; [by exists rt|]. done.
  - destruct (union_Ok_lt _ _ _ _ _ _ Hwf Hu) as [Hx Hy].
    destruct (union_spec rt ds x y Hwf Hx Hy) as (p2 & Hl & _ & Hwf2 & Hcase).
    case_decide.
    + rewrite Hu in Hcase. simplify_eq. split; [by exists rt|]. done.
    + destruct Hcase as [Hu' Hwf']. rewrite Hu in Hu'. simplify_eq.
      split; [by eexists|]. cbn. by rewrite length_insert.
Qed.

Lemma find_root_spec rt ds x :
  wf_with rt ds → x < length (parent ds) → find_root ds x = Some (rt x).
Proof.
  intros Hwf Hx. unfold find_root.
  destruct (find_spec rt ds x Hwf Hx) as (p' & -> & _). done.
Qed.

Lemma sum_list_fmap_add {A} (f g : A → nat) (R : list A) :
  sum_list ((λ r, f r + g r) <$> R) = sum_list (f <$> R) + sum_list (g <$> R).
Proof. induction R as [|a R IH]; cbn; lia. Qed.

Lemma sum_indicator (R : list nat) a :
  NoDup R →
  sum_list ((λ r, if decide (a = r) then 1 else 0) <$> R) =
  if decide (a ∈ R) then 1 else 0.
Proof.
  induction 1 as [|b R Hb _ IH]; cbn.
  { by rewrite decide_False by apply not_elem_of_nil. }
  rewrite IH. destruct (decide (a = b)) as [->|Hab].
  - rewrite (decide_False (P:=b ∈ R)) by done.
    rewrite decide_True by left. lia.
  - destruct (decide (a ∈ R)) as [Ha|Ha].
    + rewrite decide_True by (by right). lia.
    + rewrite decide_False; [lia|].
      intros [?|?]%elem_of_cons; done.
Qed.

Lemma sum_count (rt : nat → nat) (R l : list nat) :
  NoDup R → (∀ z, z ∈ l → rt z ∈ R) →
  sum_list ((λ r, length (filter (λ z, rt z = r) l)) <$> R) = length l.
Proof.
  intros HR. induction l as [|a l IH]; intros Hl.
  { clear. induction R as [|b R IH]; [done|]. cbn in *. by rewrite IH. }
  rewrite (list_fmap_ext _
    (λ r, (if decide (rt a = r) then 1 else 0)
          + length (filter (λ z, rt z = r) l))).
  2:{ intros _ r _. rewrite filter_cons. case_decide; cbn; lia. }
  rewrite sum_list_fmap_add, sum_indicator by done.
  rewrite decide_True by (apply Hl; left).
  rewrite IH; [done|]. intros z Hz. apply Hl. by right.
Qed.

Lemma wf_sum_sizes rt ds :
  wf_with rt ds → sum_list (root_sizes ds) = length (parent ds).
Proof.
  intros Hwf. unfold root_sizes.
  rewrite (list_fmap_ext _
    (λ r, length (filter (λ z, rt z = r) (seq 0 (length (parent ds)))))).
  2:{ intros i r Hr. apply list_elem_of_lookup_2, list_elem_of_filter in Hr.
      destruct Hr as [Hr _]. by apply Hwf. }
  rewrite sum_count; [by rewrite length_seq| |].
  - apply NoDup_filter, NoDup_seq.
  - intros z Hz. apply elem_of_seq in Hz.
    apply list_elem_of_filter. split.
    + apply (wf_rt_is_root rt ds); [done|lia].
    + apply elem_of_seq. pose proof (wf_rt_lt rt ds z Hwf). lia.
Qed.

Lemma after_finds_wf rt ds ds' :
  wf_with rt ds → after_finds ds ds' →
  wf_with rt ds' ∧ length (parent ds') = length (parent ds) ∧
  rank ds' = rank ds ∧ size ds' = size ds.
Proof.
  intros Hwf. induction 1 as [|x ds1 r ds2 _ (Hwf1 & Hl1 & Hr1 & Hs1) Hf];
    [done|].
  pose proof (find_Ok_lt _ _ _ _ Hf) as Hx.
  destruct (find_spec rt ds1 x Hwf1 Hx) as (p' & Hf' & Hwf' & Hl & _).
  rewrite Hf in Hf'. simplify_eq. cbn. split_and!; [done|lia|done..].
Qed.

Lemma on_path_of_root p r v : p !! r = Some r → ¬ on_path p r v.
Proof. intros Hr. inversion 1; congruence. Qed.

Lemma roots_init n : roots (DisjointSet_init n) = seq 0 n.
Proof.
  unfold roots. cbn. rewrite length_seq.
  assert (H : ∀ l : list nat, (∀ i, i ∈ l → seq 0 n !! i = Some i) →
    filter (λ i, seq 0 n !! i = Some i) l = l).
  { induction l as [|a l IH]; intros Hl; [done|].
    rewrite filter_cons, decide_True by (apply Hl; left).
    rewrite IH; [done|]. intros i Hi. apply Hl. by right. }
  apply H. intros i Hi%elem_of_seq. rewrite lookup_seq_lt; [done|lia].
Qed.

Lemma ds_pair_reachable : reachable 4 ds_pair.
Proof.
  apply (reach_union 4 (DisjointSet_init 4) 0 1 _ true);
    [apply reach_init|reflexivity].
Qed.

Lemma ds_pairs_reachable : reachable 4 ds_pairs.
Proof.
  apply (reach_union 4 ds_pair 2 3 _ true);
    [apply ds_pair_reachable|reflexivity].
Qed.

Lemma ds_chain_reachable : reachable 4 ds_chain.
Proof.
  apply (reach_union 4 ds_pairs 0 2 _ true);
    [apply ds_pairs_reachable|reflexivity].
Qed.

(** * Claims about the disjoint-set structure *)

(** C4 (partition invariant).  A fresh [DisjointSet(n)] has [n] singleton
    components: every index is its own parent, with rank 0 and size 1.  In
    every state reached from it by [find] and [union] calls, following the
    parent pointers from any index ends at a root, which is what [find]
    returns, and the sizes recorded at the current roots add up to [n]. *)
Theorem partition_invariant n ds :
  reachable n ds →
  (parent (DisjointSet_init n) = seq 0 n ∧
   rank (DisjointSet_init n) = replicate n 0 ∧
   size (DisjointSet_init n) = replicate n 1 ∧
   root_sizes (DisjointSet_init n) = replicate n 1) ∧
  (∀ x, x < n →
     ∃ r, path_to_root (parent ds) x r ∧ parent ds !! r = Some r ∧
          find_root ds x = Some r) ∧
  sum_list (root_sizes ds) = n.
Proof.
  intros Hreach. destruct (reachable_wf _ _ Hreach) as [[rt Hwf] Hn].
  split_and!; try done.
  - unfold root_sizes. rewrite roots_init. cbn.
    apply list_eq. intros i. rewrite list_lookup_fmap.
    destruct (decide (i < n)) as [Hi|Hi].
    + rewrite lookup_seq_lt, lookup_replicate_2 by done. cbn.
      by rewrite lookup_total_replicate_2.
    + rewrite lookup_seq_ge by lia. cbn. symmetry.
      apply lookup_replicate_None. lia.
  - intros x Hx. exists (rt x). split_and!.
    + apply Hwf. lia.
    + apply (wf_rt_is_root rt ds); [done|lia].
    + apply find_root_spec; [done|lia].
  - rewrite <- Hn. by eapply wf_sum_sizes.
Qed.

Lemma partition_invariant_witness :
  reachable 4 ds_chain ∧ sum_list (root_sizes ds_chain) = 4.
Proof.
  split; [exact ds_chain_reachable|].
  exact (proj2 (proj2 (partition_invariant 4 ds_chain ds_chain_reachable))).
Defined.

(** C10 (per-root size exactness).  In every reachable state, the size
    recorded at a root [r] is exactly the number of indices whose [find]
    returns [r]. *)
Theorem root_size_exact n ds r :
  reachable n ds → r < n → parent ds !! r = Some r →
  size ds !! r =
  Some (length (filter (λ x, find_root ds x = Some r) (seq 0 n))).
Proof.
  intros Hreach Hr Hroot. destruct (reachable_wf _ _ Hreach) as [[rt Hwf] Hn].
  rewrite list_lookup_lookup_total_lt by (rewrite (wf_len_size _ _ Hwf); lia).
  f_equal. rewrite (wf_size_count _ _ Hwf) by done.
  unfold count_root. rewrite Hn. clear Hr Hroot.
  assert (H : ∀ l : list nat, (∀ x, x ∈ l → x < n) →
    length (filter (λ x, rt x = r) l)
    = length (filter (λ x, find_root ds x = Some r) l)).
  { induction l as [|a l IH]; intros Hl; [done|].
    rewrite !filter_cons, (find_root_spec rt ds a Hwf)
      by (rewrite Hn; apply Hl; left).
    assert (IH' := IH (λ x Hx, Hl x (list_elem_of_further _ _ _ Hx))).
    repeat case_decide; simplify_eq; cbn; congruence. }
  apply H. intros x Hx%elem_of_seq. lia.
Qed.

Lemma root_size_exact_witness :
  size ds_chain !! 0 =
  Some (length (filter (λ x, find_root ds_chain x = Some 0) (seq 0 4))).
Proof.
  apply (root_size_exact 4 ds_chain 0 ds_chain_reachable);
    [lia|reflexivity].
Defined.

(** C8 (find: idempotence and path compression).  In a reachable state,
    [find x] returns a root [r]; calling it again returns [r] again; every
    node visited on the path of [x] now points directly at [r] and no other
    parent pointer, rank or size changed; and after any number of [find]
    calls every index still has the root it had. *)
Theorem find_idempotent n ds x :
  reachable n ds → x < n →
  ∃ ds1 r,
    find ds x = Ok (ds1, r) ∧
    (∃ ds2, find ds1 x = Ok (ds2, r)) ∧
    parent ds1 !! r = Some r ∧
    (∀ v, on_path (parent ds) x v → parent ds1 !! v = Some r) ∧
    (∀ v, ¬ on_path (parent ds) x v → parent ds1 !! v = parent ds !! v) ∧
    rank ds1 = rank ds ∧ size ds1 = size ds ∧
    (∀ ds', after_finds ds ds' →
       ∀ y, y < n → find_root ds' y = find_root ds y).
Proof.
  intros Hreach Hx. destruct (reachable_wf _ _ Hreach) as [[rt Hwf] Hn].
  subst n.
  destruct (find_spec rt ds x Hwf Hx) as (p' & Hf & Hwf' & Hl & Hiff & Hon & Hoff).
  exists (set_parent ds p'), (rt x). split_and!; try done.
  - destruct (find_spec rt (set_parent ds p') x Hwf') as (p2 & Hf2 & _);
      [cbn; lia|]. eauto.
  - apply (wf_rt_is_root rt (set_parent ds p')); [done|cbn; lia].
  - intros ds' Haf y Hy.
    destruct (after_finds_wf rt ds ds' Hwf Haf) as (Hwf2 & Hl2 & _).
    rewrite !(find_root_spec rt) by (done || lia). done.
Qed.

Lemma find_idempotent_witness :
  ∃ ds1 r, find ds_chain 3 = Ok (ds1, r) ∧ ∃ ds2, find ds1 3 = Ok (ds2, r).
Proof.
  destruct (find_idempotent 4 ds_chain 3 ds_chain_reachable)
    as (ds1 & r & Hf & Hf2 & _); [lia|].
  exists ds1, r. split; [exact Hf|exact Hf2].
Defined.

(** C3, as the spec states it, fails: a [union] that returns [False] has
    already run [find] twice, and [find] compresses paths.  In [ds_chain]
    the indices 3 and 0 are in one component; [union(3, 0)] returns [False]
    and re-points 3 from 2 to 0. *)
Lemma union_noop_mutates_parent :
  reachable 4 ds_chain ∧
  ∃ ds', union ds_chain 3 0 = Ok (ds', false) ∧
         parent ds_chain = [0; 0; 0; 2] ∧ parent ds' = [0; 0; 0; 0] ∧
         parent ds' ≠ parent ds_chain.
Proof.
  split; [exact ds_chain_reachable|].
  eexists. split; [reflexivity|]. cbn. split_and!; [done|done|discriminate].
Qed.

(** C3 (amended).  On a reachable state and indices in range, [union x y]
    returns.  If [x] and [y] have the same root it returns [False], leaves
    rank and size alone and changes no index's root (parent pointers change
    only by path compression).  Otherwise it returns [True]: with
    [(big, small)] the two roots ordered by rank ([root_x] surviving a tie),
    [small] is attached under [big], which stays a root; the size of [small]
    is added to that of [big]; the rank of [big] grows by one exactly on a
    tie; the indices that had root [small] now have root [big] and all other
    roots are unchanged.  In both cases a second [union x y] returns
    [False]. *)
Theorem union_correct n ds x y :
  reachable n ds → x < n → y < n →
  ∃ rx ry ds' b,
    find_root ds x = Some rx ∧ find_root ds y = Some ry ∧
    union ds x y = Ok (ds', b) ∧
    (rx = ry →
       b = false ∧ rank ds' = rank ds ∧ size ds' = size ds ∧
       ∀ z, z < n → find_root ds' z = find_root ds z) ∧
    (rx ≠ ry →
       let big := (pick ds rx ry).1 in
       let small := (pick ds rx ry).2 in
       b = true ∧
       rank ds !!! small ≤ rank ds !!! big ∧
       (rank ds !!! rx = rank ds !!! ry → big = rx ∧ small = ry) ∧
       parent ds' !! small = Some big ∧ parent ds' !! big = Some big ∧
       size ds' = <[big:=size ds !!! big + size ds !!! small]> (size ds) ∧
       rank ds' = (if decide (rank ds !!! rx = rank ds !!! ry)
                   then <[big:=rank ds !!! big + 1]> (rank ds)
                   else rank ds) ∧
       ∀ z, z < n →
         find_root ds' z = if decide (find_root ds z = Some small)
                           then Some big else find_root ds z) ∧
    ∃ ds'', union ds' x y = Ok (ds'', false).
Proof.
  intros Hreach Hx Hy. destruct (reachable_wf _ _ Hreach) as [[rt Hwf] Hn].
  subst n.
  destruct (union_spec rt ds x y Hwf Hx Hy) as (p2 & Hl & Hiff & Hwf2 & Hcase).
  exists (rt x), (rt y).
  assert (Hrx : parent ds !! rt x = Some (rt x)) by by apply (wf_rt_is_root rt).
  assert (Hry : parent ds !! rt y = Some (rt y)) by by apply (wf_rt_is_root rt).
  case_decide as Heq.
  - exists (set_parent ds p2), false.
    rewrite !(find_root_spec rt) by done. split_and!; try done.
    + intros _. split_and!; try done. intros z Hz.
      rewrite !(find_root_spec rt) by (done || cbn; lia). done.
    + destruct (union_spec rt (set_parent ds p2) x y Hwf2) as (p3 & _ & _ & _ & Hc);
        [cbn; lia..|]. rewrite decide_True in Hc by done. eauto.
  - destruct Hcase as [Hu Hwf'].
    set (big := (pick ds (rt x) (rt y)).1) in *.
    set (small := (pick ds (rt x) (rt y)).2) in *.
    assert (Hpick : (big = rt x ∧ small = rt y
                     ∧ rank ds !!! rt y ≤ rank ds !!! rt x)
                  ∨ (big = rt y ∧ small = rt x
                     ∧ rank ds !!! rt x < rank ds !!! rt y)).
    { unfold big, small, pick. case_decide; cbn; [right|left]; lia. }
    assert (Hbs : big ≠ small) by (destruct Hpick as [(->&->&_)|(->&->&_)]; done).
    assert (Hbig : p2 !! big = Some big).
    { apply (same_paths_same_roots _ _ Hiff).
      by destruct Hpick as [(->&_)|(->&_)]. }
    assert (Hsmall : small < length p2).
    { rewrite Hl.
      destruct Hpick as [(_&->&_)|(_&->&_)]; eauto using lookup_lt_Some. }
    exists (link ds p2 big small), true.
    rewrite !(find_root_spec rt) by done. split_and!; try done.
    intros _. cbn zeta. split_and!; try done.
    + destruct Hpick as [(->&->&?)|(->&->&?)]; lia.
    + intros Htie. destruct Hpick as [(->&->&?)|(->&->&?)]; [done|lia].
    + cbn. by apply list_lookup_insert_eq.
    + cbn. by rewrite list_lookup_insert_ne.
    + cbn. destruct Hpick as [(->&->&?)|(->&->&?)];
        repeat case_decide; try done; lia.
    + intros z Hz.
      rewrite (find_root_spec _ _ _ Hwf') by (cbn; rewrite length_insert; lia).
      rewrite (find_root_spec rt) by done. unfold relink.
      repeat case_decide; congruence.
    + destruct (union_spec _ _ x y Hwf') as (p3 & _ & _ & _ & Hc);
        [cbn; rewrite length_insert; lia..|].
      rewrite decide_True in Hc; [eauto|].
      unfold relink. destruct Hpick as [(->&->&?)|(->&->&?)];
        repeat case_decide; congruence.
Qed.

Lemma union_correct_witness :
  ∃ ds' b, union ds_chain 3 0 = Ok (ds', b) ∧
           ∃ ds'', union ds' 3 0 = Ok (ds'', false).
Proof.
  destruct (union_correct 4 ds_chain 3 0 ds_chain_reachable)
    as (rx & ry & ds' & b & _ & _ & Hu & _ & _ & Hu2); [lia|lia|].
  exists ds', b. split; [exact Hu|exact Hu2].
Defined.

Example parse_example :
  parse_coordinates "162,817,812
57,618,57
-3, 4 ,+1_0" = Ok [[162; 817; 812]; [57; 618; 57]; [-3; 4; 10]]%Z.
Proof. reflexivity. Qed.

Example part2_path :
  part2_exact "0,0,0
1,0,0
3,0,0
7,0,0" = Ok 21%Z.
Proof. vm_compute. reflexivity. Qed.

Example part1_small :
  part1_exact "0,0,0
1,0,0
3,0,0
7,0,0" = Raise IndexError.
Proof. vm_compute. reflexivity. Qed.

(** ** Facts about the sort *)

Section sort_facts.

Context {A : Type} (lt : A → A → bool).

Local Abbreviation not_after := (not_after lt).

Lemma insert_sorted_perm x l : insert_sorted lt x l ≡ₚ x :: l.
Proof.
  induction l as [|y l IH]; cbn; [done|].
  destruct (lt y x); [|done]. rewrite IH. apply perm_swap.
Qed.

Lemma sort_perm l : sort lt l ≡ₚ l.
Proof.
  induction l as [|x l IH]; cbn; [done|].
  by rewrite insert_sorted_perm, IH.
Qed.

Lemma sort_reverse_perm l : sort_reverse lt l ≡ₚ l.
Proof.
  unfold sort_reverse. by rewrite reverse_Permutation, sort_perm,
    reverse_Permutation.
Qed.

Hypothesis lt_asym : ∀ a b, lt a b = true → lt b a = false.
Hypothesis not_after_trans :
  ∀ a b c, not_after a b → not_after b c → not_after a c.

Lemma insert_sorted_sorted x l :
  StronglySorted not_after l → StronglySorted not_after (insert_sorted lt x l).
Proof.
  induction 1 as [|y l Hl IH Hy]; cbn.
  { repeat constructor. }
  destruct (lt y x) eqn:Hyx.
  - constructor; [done|].
    rewrite insert_sorted_perm. constructor; [|done].
    by apply lt_asym.
  - constructor; [by constructor|]. constructor; [done|].
    eapply Forall_impl; [exact Hy|]. intros z Hz.
    by apply (not_after_trans x y z).
Qed.

Lemma sort_sorted l : StronglySorted not_after (sort lt l).
Proof.
  induction l as [|x l IH]; cbn; [constructor|].
  by apply insert_sorted_sorted.
Qed.

End sort_facts.

Lemma StronglySorted_reverse {A} (R : relation A) l :
  StronglySorted R l → StronglySorted (flip R) (reverse l).
Proof.
  induction 1 as [|x l Hl IH Hx]; [constructor|].
  rewrite reverse_cons. apply StronglySorted_app; split_and!.
  - intros a b Ha Hb%list_elem_of_singleton. subst b.
    rewrite elem_of_reverse in Ha. unfold flip.
    rewrite Forall_forall in Hx. by apply Hx.
  - done.
  - repeat constructor.
Qed.

Lemma StronglySorted_weaken {A} (R R' : relation A) l :
  (∀ a b, R a b → R' a b) → StronglySorted R l → StronglySorted R' l.
Proof.
  intros HR. induction 1 as [|x l Hl IH Hx]; constructor; [done|].
  eapply Forall_impl; [exact Hx|]. auto.
Qed.

(** A list sorted with [reverse=True] is in non-increasing order. *)
Lemma sort_reverse_nat_sorted (l : list nat) :
  StronglySorted ge (sort_reverse Nat.ltb l).
Proof.
  unfold sort_reverse.
  eapply (StronglySorted_reverse (λ a b, a ≤ b)).
  eapply StronglySorted_weaken; [|apply sort_sorted].
  - unfold not_after. intros a b Hab%Nat.ltb_ge. done.
  - intros a b Hab%Nat.ltb_lt. apply Nat.ltb_ge. lia.
  - unfold not_after. intros a b c ?%Nat.ltb_ge ?%Nat.ltb_ge.
    apply Nat.ltb_ge. lia.
Qed.

(** ** Counting roots *)

Lemma roots_same ds ds' :
  length (parent ds) = length (parent ds') →
  (∀ r, parent ds !! r = Some r ↔ parent ds' !! r = Some r) →
  roots ds = roots ds'.
Proof.
  intros Hl Hr. unfold roots. rewrite Hl. by apply list_filter_iff.
Qed.

Lemma filter_ext_in {A} (P Q : A → Prop)
    `{!∀ i, Decision (P i), !∀ i, Decision (Q i)} (l : list A) :
  (∀ i, i ∈ l → P i ↔ Q i) → filter P l = filter Q l.
Proof.
  induction l as [|a l IH]; intros Hext; [done|].
  rewrite !filter_cons, IH by (intros i Hi; apply Hext; by right).
  pose proof (Hext a (list_elem_of_here _ _)).
  repeat case_decide; tauto.
Qed.

Lemma filter_remove_one (P : nat → Prop) `{!∀ i, Decision (P i)}
    (l : list nat) x :
  NoDup l → x ∈ l → P x →
  length (filter (λ i, P i ∧ i ≠ x) l) + 1 = length (filter P l).
Proof.
  intros Hnd Hx HP. induction Hnd as [|a l Ha Hnd IH].
  { by apply not_elem_of_nil in Hx. }
  rewrite !filter_cons. apply elem_of_cons in Hx as [<-|Hx].
  - rewrite decide_False by tauto. rewrite decide_True by done. cbn.
    rewrite (filter_ext_in _ P); [lia|].
    intros i Hi. split; [tauto|]. intros HPi. split; [done|]. by intros ->.
  - specialize (IH Hx).
    destruct (decide (P a)).
    + rewrite decide_True; [cbn; lia|]. split; [done|]. by intros ->.
    + rewrite decide_False by tauto. lia.
Qed.

Lemma roots_link ds p big small :
  p !! small = Some small → big ≠ small →
  length (roots (link ds p big small)) + 1 = length (roots (set_parent ds p)).
Proof.
  intros Hsmall Hne. unfold roots. cbn. rewrite length_insert.
  assert (Hlt : small < length p) by eauto using lookup_lt_Some.
  rewrite <- (filter_remove_one (λ i, p !! i = Some i) _ small);
    [|apply NoDup_seq|apply elem_of_seq; lia|exact Hsmall].
  f_equal. f_equal. apply list_filter_iff. intros i.
  destruct (decide (i = small)) as [->|Hi].
  - rewrite list_lookup_insert_eq by done. split; [congruence|tauto].
  - rewrite list_lookup_insert_ne by done. tauto.
Qed.

(** One [union] call, seen from the roots: it returns; every two indices
    that had the same root still have; [x] and [y] now have the same root;
    and the number of roots drops by one exactly when it merges. *)
Lemma union_step rt ds x y :
  wf_with rt ds → x < length (parent ds) → y < length (parent ds) →
  ∃ ds' b rt',
    union ds x y = Ok (ds', b) ∧
    wf_with rt' ds' ∧
    length (parent ds') = length (parent ds) ∧
    (∀ u v, rt u = rt v → rt' u = rt' v) ∧
    rt' x = rt' y ∧
    (b = false ↔ rt x = rt y) ∧
    length (roots ds') + (if b then 1 else 0) = length (roots ds).
Proof.
  intros Hwf Hx Hy.
  destruct (union_spec rt ds x y Hwf Hx Hy) as (p2 & Hl & Hiff & Hwf2 & Hcase).
  assert (Hroots : roots (set_parent ds p2) = roots ds).
  { symmetry. apply roots_same; [done|]. by apply same_paths_same_roots. }
  case_decide as Heq.
  - exists (set_parent ds p2), false, rt. split_and!; try done.
    rewrite Hroots. lia.
  - destruct Hcase as [Hu Hwf'].
    set (big := (pick ds (rt x) (rt y)).1) in *.
    set (small := (pick ds (rt x) (rt y)).2) in *.
    assert (Hpick : (big = rt x ∧ small = rt y) ∨ (big = rt y ∧ small = rt x)).
    { unfold big, small, pick. case_decide; cbn; tauto. }
    assert (Hbs : big ≠ small) by (destruct Hpick as [[-> ->]|[-> ->]]; done).
    assert (Hsmall : p2 !! small = Some small).
    { apply (same_paths_same_roots _ _ Hiff).
      destruct Hpick as [[_ ->]|[_ ->]]; by apply (wf_rt_is_root rt). }
    exists (link ds p2 big small), true, (relink rt big small).
    split_and!; try done.
    + cbn. rewrite length_insert. done.
    + intros u v Huv. unfold relink. by rewrite Huv.
    + unfold relink. destruct Hpick as [[-> ->]|[-> ->]];
        repeat case_decide; congruence.
    + rewrite <- Hroots. by apply roots_link.
Qed.

Lemma comprehension_Ok {A B} (f : A → result B) l ys :
  comprehension f l = Ok ys → Forall2 (λ x y, f x = Ok y) l ys.
Proof.
  revert ys. induction l as [|x l IH]; intros ys; cbn.
  { intros [= <-]. constructor. }
  destruct (f x) as [y|] eqn:Hx; [|done]. cbn.
  destruct (comprehension f l) as [ys'|] eqn:Hl; [|done]. cbn.
  intros [= <-]. constructor; auto.
Qed.

Lemma comprehension_Raise {A B} (f : A → result B) l x e0 :
  x ∈ l → f x = Raise e0 → ∃ e, comprehension f l = Raise e.
Proof.
  intros Hx Hf. induction Hx as [x l|x y l Hx IH]; cbn.
  - rewrite Hf. cbn. eauto.
  - destruct (f y); cbn; [|eauto]. destruct (IH Hf) as [e ->]. cbn. eauto.
Qed.

Lemma comprehension_Raise_inv {A B} (f : A → result B) l e :
  comprehension f l = Raise e → ∃ x, x ∈ l ∧ f x = Raise e.
Proof.
  induction l as [|x l IH]; cbn; [done|].
  destruct (f x) as [y|e'] eqn:Hx; cbn.
  - destruct (comprehension f l) as [ys|e'] eqn:Hl; cbn; [done|].
    intros [= <-]. destruct IH as (z & Hz & Hfz); [done|].
    exists z. split; [by right|done].
  - intros [= <-]. exists x. split; [left|done].
Qed.

Lemma elem_of_index_pairs n i j : (i, j) ∈ index_pairs n ↔ i < j < n.
Proof.
  unfold index_pairs. rewrite list_elem_of_bind. split.
  - intros (i' & Hij & Hi'). apply list_elem_of_bind in Hij as (j' & Hij & Hj').
    apply list_elem_of_singleton in Hij. simplify_eq.
    apply elem_of_seq in Hi', Hj'. lia.
  - intros Hij. exists i. split; [|apply elem_of_seq; lia].
    apply list_elem_of_bind. exists j. split; [by apply list_elem_of_singleton|].
    apply elem_of_seq. lia.
Qed.

Lemma NoDup_le_1 {A} (l : list A) :
  NoDup l → (∀ a b, a ∈ l → b ∈ l → a = b) → length l ≤ 1.
Proof.
  intros Hnd Heq. destruct l as [|a [|b l]]; cbn; [lia..|].
  exfalso. assert (a = b) as -> by (apply Heq; [left|right; left]).
  apply NoDup_cons in Hnd as [Hb _]. apply Hb. left.
Qed.

Lemma roots_le_1 rt ds :
  wf_with rt ds →
  (∀ u v, u < v < length (parent ds) → rt u = rt v) →
  length (roots ds) ≤ 1.
Proof.
  intros Hwf Hall. apply NoDup_le_1.
  { apply NoDup_filter, NoDup_seq. }
  intros a b [Ha Hal%elem_of_seq]%list_elem_of_filter
             [Hb Hbl%elem_of_seq]%list_elem_of_filter.
  rewrite <- (wf_rt_root rt ds a), <- (wf_rt_root rt ds b) by done.
  destruct (decide (a = b)) as [->|Hab]; [done|].
  destruct (decide (a < b)); [apply Hall|symmetry; apply Hall]; lia.
Qed.

Lemma roots_ge_1 rt ds :
  wf_with rt ds → 0 < length (parent ds) → 0 < length (roots ds).
Proof.
  intros Hwf Hn.
  assert (Hin : rt 0 ∈ roots ds).
  { apply list_elem_of_filter. split; [by apply (wf_rt_is_root rt)|].
    apply elem_of_seq. pose proof (wf_rt_lt rt ds 0 Hwf Hn). lia. }
  destruct (roots ds); [by apply not_elem_of_nil in Hin|cbn; lia].
Qed.

Section driver_facts.

Context {float : Type}.
Implicit Types (es : list (@edge float)) (e : @edge float).

Lemma unions_spec rt ds es :
  wf_with rt ds → in_range (length (parent ds)) es →
  ∃ ds' m rt',
    unions es ds = Ok (ds', m) ∧
    wf_with rt' ds' ∧
    length (parent ds') = length (parent ds) ∧
    (∀ u v, rt u = rt v → rt' u = rt' v) ∧
    (∀ e, e ∈ es → rt' (e.1.2) = rt' (e.2)) ∧
    length (roots ds') + m = length (roots ds).
Proof.
  revert rt ds. induction es as [|[[d x] y] es IH]; intros rt ds Hwf Hin.
  { exists ds, 0, rt. split_and!; try done; try lia.
    intros e He. by apply not_elem_of_nil in He. }
  destruct (Hin (d, x, y) (list_elem_of_here _ _)) as [Hx Hy].
  cbn in Hx, Hy.
  destruct (union_step rt ds x y Hwf Hx Hy)
    as (ds1 & b & rt1 & Hu & Hwf1 & Hl1 & Hmono1 & Hxy & _ & Hroots1).
  destruct (IH rt1 ds1 Hwf1) as (ds2 & m & rt2 & Hus & Hwf2 & Hl2 & Hmono2 & Hes & Hroots2).
  { rewrite Hl1. intros e He. apply Hin. by right. }
  exists ds2, (if b then S m else m), rt2. cbn. rewrite Hu. cbn.
  rewrite Hus. cbn. split_and!; try done.
  - lia.
  - auto.
  - intros e [->|He]%elem_of_cons; [cbn; auto|auto].
  - destruct b; lia.
Qed.

Lemma connect_attempts_unions threshold es ds attempts :
  attempts < threshold →
  connect_attempts threshold es ds attempts
  = fst <$> unions (take (threshold - attempts) es) ds.
Proof.
  revert ds attempts. induction es as [|[[d x] y] es IH];
    intros ds attempts Hlt.
  { by rewrite take_nil. }
  destruct (threshold - attempts) as [|k] eqn:Hk; [lia|].
  cbn. destruct (union ds x y) as [[ds1 b]|e]; [|done]. cbn.
  case_bool_decide as Heq.
  - assert (k = 0) as -> by lia. by rewrite take_0.
  - rewrite IH by lia. replace (threshold - (attempts + 1)) with k by lia.
    destruct (unions (take k es) ds1) as [[ds2 m]|]; done.
Qed.

End driver_facts.

Lemma circuit_sizes_from_spec rt ds0 indices ds :
  wf_with rt ds0 → wf_with rt ds →
  length (parent ds) = length (parent ds0) → size ds = size ds0 →
  (∀ i, i ∈ indices → i < length (parent ds0)) →
  ∃ ds',
    circuit_sizes_from indices ds
    = Ok (ds', (λ i, size ds0 !!! i)
                 <$> filter (λ i, parent ds0 !! i = Some i) indices).
Proof.
  intros Hwf0. revert ds.
  induction indices as [|i indices IH]; intros ds Hwf Hl Hs Hin.
  { eexists. reflexivity. }
  assert (Hi : i < length (parent ds0)) by (apply Hin; left).
  destruct (find_spec rt ds i Hwf) as (p' & Hf & Hwf' & Hl' & _); [lia|].
  destruct (IH (set_parent ds p') Hwf') as (ds' & Hrec);
    [cbn; lia|done|intros j Hj; apply Hin; by right|].
  rewrite filter_cons. cbn [circuit_sizes_from]. rewrite Hf.
  cbn [mbind result_bind]. case_bool_decide as Hroot.
  - rewrite decide_True.
    2:{ rewrite <- Hroot at 1 2. by apply (wf_rt_is_root rt). }
    cbn [size set_parent].
    rewrite getitem_total by (rewrite Hs, (wf_len_size _ _ Hwf0); lia).
    cbn [mbind result_bind]. rewrite Hrec. cbn [mbind result_bind].
    rewrite Hs. cbn [fmap list_fmap]. eauto.
  - rewrite decide_False.
    2:{ intros Hr. apply Hroot. by apply (wf_rt_root rt ds0). }
    eauto.
Qed.

Lemma circuit_sizes_spec rt ds :
  wf_with rt ds →
  ∃ ds', circuit_sizes_from (seq 0 (length (parent ds))) ds
         = Ok (ds', root_sizes ds).
Proof.
  intros Hwf. apply (circuit_sizes_from_spec rt); try done.
  intros i Hi%elem_of_seq. lia.
Qed.

Lemma product_of_three_largest_short l :
  length l < 3 → product_of_three_largest l = Raise IndexError.
Proof.
  intros Hl. unfold product_of_three_largest.
  pose proof (Permutation_length (sort_reverse_perm Nat.ltb l)) as Hlen.
  destruct (sort_reverse Nat.ltb l) as [|a [|b [|c s]]]; cbn in *;
    try done; lia.
Qed.

Lemma product_of_three_largest_spec l :
  3 ≤ length l →
  ∃ a b c rest,
    l ≡ₚ a :: b :: c :: rest ∧ c ≤ b ∧ b ≤ a ∧
    Forall (λ s, s ≤ c) rest ∧
    product_of_three_largest l = Ok (a * b * c).
Proof.
  intros Hl. unfold product_of_three_largest.
  pose proof (sort_reverse_perm Nat.ltb l) as Hperm.
  pose proof (Permutation_length Hperm) as Hlen.
  pose proof (sort_reverse_nat_sorted l) as Hsorted.
  destruct (sort_reverse Nat.ltb l) as [|a [|b [|c s]]]; cbn in Hlen;
    try lia.
  exists a, b, c, s.
  apply StronglySorted_inv in Hsorted as [Hs1 Ha].
  apply StronglySorted_inv in Hs1 as [Hs2 Hb].
  apply StronglySorted_inv in Hs2 as [_ Hc].
  apply Forall_cons in Ha as [Hab _]. apply Forall_cons in Hb as [Hbc _].
  split_and!; try done; lia.
Qed.

(** * Claims about the ranking and the drivers *)

Section driver_claims.

Context {float : Type}.
Variable pow_half : Z → result float.
Variable float_eq float_lt : float → float → bool.

Local Ltac unfold_ranked_edges := unfold ranked_edges.
Local Ltac unfold_part1 := unfold part1.
Local Ltac unfold_part2 := unfold part2.
Local Ltac unfold_all_distances := unfold all_distances.
Local Tactic Notation "unfold_euclidean_distance" "in" hyp(H) :=
  unfold euclidean_distance in H.

Local Abbreviation euclidean_distance := (euclidean_distance pow_half).
Local Abbreviation edge_lt := (edge_lt float_eq float_lt).
Local Abbreviation all_distances := (all_distances pow_half).
Local Abbreviation ranked_edges := (ranked_edges pow_half float_eq float_lt).
Local Abbreviation part1 := (part1 pow_half float_eq float_lt).
Local Abbreviation part2 := (part2 pow_half float_eq float_lt).
Local Abbreviation edge_of := (edge_of pow_half).

Lemma all_distances_spec coordinates es :
  all_distances coordinates = Ok es →
  endpoints <$> es = index_pairs (length coordinates) ∧
  Forall (edge_of coordinates) es.
Proof.
  intros H%comprehension_Ok.
  induction H as [|[i j] [[d i'] j'] ps es Hp _ [IH1 IH2]]; [done|].
  unfold getitem in Hp.
  destruct (coordinates !! i) as [ci|] eqn:Hi; [|done].
  destruct (coordinates !! j) as [cj|] eqn:Hj; [|done]. cbn in Hp.
  destruct (euclidean_distance ci cj) as [d'|] eqn:Hd; [|done].
  cbn in Hp. simplify_eq. split.
  - cbn. by f_equal.
  - constructor; [|done]. by exists ci, cj.
Qed.

Lemma ranked_edges_spec coordinates es :
  ranked_edges coordinates = Ok es →
  endpoints <$> es ≡ₚ index_pairs (length coordinates) ∧
  Forall (edge_of coordinates) es.
Proof.
  unfold_ranked_edges.
  destruct (all_distances coordinates) as [ds|] eqn:Hall; [|done].
  cbn. intros [= <-]. apply all_distances_spec in Hall as [Hends Hall].
  split.
  - rewrite <- Hends. apply fmap_Permutation, sort_perm.
  - by rewrite sort_perm.
Qed.

Lemma ranked_edges_pairs coordinates es :
  ranked_edges coordinates = Ok es →
  ∀ i j, (∃ e, e ∈ es ∧ e.1.2 = i ∧ e.2 = j) ↔ i < j < length coordinates.
Proof.
  intros [Hperm _]%ranked_edges_spec i j.
  rewrite <- elem_of_index_pairs, <- Hperm, list_elem_of_fmap.
  split.
  - intros ([[d i'] j'] & He & <- & <-). by exists (d, i', j').
  - intros ([[d i'] j'] & [= -> ->] & He). by exists (d, i', j').
Qed.

Lemma ranked_edges_in_range coordinates es :
  ranked_edges coordinates = Ok es → in_range (length coordinates) es.
Proof.
  intros Hr e He.
  enough (e.1.2 < e.2 < length coordinates) by lia.
  apply (ranked_edges_pairs _ _ Hr). eauto.
Qed.

(** What [part1] computes, in both the expected and the degenerate case:
    the product of the three largest root sizes of the state that the
    first 1000 ranked edges (or all of them, if there are fewer) leave. *)
Lemma part1_unfold data coordinates es :
  parse_coordinates data = Ok coordinates →
  ranked_edges coordinates = Ok es →
  ∃ ds m rt,
    unions (take 1000 es) (DisjointSet_init (length coordinates))
      = Ok (ds, m) ∧
    connect_attempts 1000 es (DisjointSet_init (length coordinates)) 0
      = Ok ds ∧
    wf_with rt ds ∧ length (parent ds) = length coordinates ∧
    (∀ e, e ∈ take 1000 es → rt (e.1.2) = rt (e.2)) ∧
    part1 data = product_of_three_largest (root_sizes ds).
Proof.
  intros Hparse Hranked.
  pose proof (ranked_edges_in_range _ _ Hranked) as Hin.
  destruct (unions_spec id (DisjointSet_init (length coordinates))
              (take 1000 es) (wf_init _))
    as (ds & m & rt & Hu & Hwf & Hl & _ & Hconn & _).
  { cbn. rewrite length_seq. intros e He. apply Hin.
    by apply (subseteq_take 1000 es). }
  cbn in Hl. rewrite length_seq in Hl.
  assert (Hloop : connect_attempts 1000 es
            (DisjointSet_init (length coordinates)) 0 = Ok ds).
  { rewrite connect_attempts_unions by lia. cbn [Nat.sub]. by rewrite Hu. }
  exists ds, m, rt. split_and!; try done.
  unfold_part1. rewrite Hparse. cbn [mbind result_bind].
  rewrite Hranked. cbn [mbind result_bind]. rewrite Hloop.
  cbn [mbind result_bind].
  destruct (circuit_sizes_spec rt ds Hwf) as (ds' & Hsizes).
  rewrite Hl in Hsizes. by rewrite Hsizes.
Qed.
(** C1. Mode A ([part1]): on an input with at least 1000 candidate edges,
    the loop of [part1] calls [union] on exactly the first 1000 ranked
    edges, in ranked order, whether or not a call merges (the run [unions]
    over [take 1000 es] counts [m] merging calls, the loop stops after
    1000 calls, not after 1000 merges); and when at least 3 roots remain
    in the state [ds] it leaves, [part1] returns [a * b * c] where
    [a ≥ b ≥ c] are three of the sizes recorded at the roots of [ds] and
    every other root size is at most [c]. *)
Theorem part1_correct data coordinates es :
  parse_coordinates data = Ok coordinates →
  ranked_edges coordinates = Ok es →
  1000 ≤ length es →
  ∃ ds m,
    unions (take 1000 es) (DisjointSet_init (length coordinates))
      = Ok (ds, m) ∧
    length (take 1000 es) = 1000 ∧
    connect_attempts 1000 es (DisjointSet_init (length coordinates)) 0
      = Ok ds ∧
    (3 ≤ length (roots ds) →
     ∃ a b c rest,
       root_sizes ds ≡ₚ a :: b :: c :: rest ∧
       c ≤ b ∧ b ≤ a ∧ Forall (λ s, s ≤ c) rest ∧
       part1 data = Ok (a * b * c)).
Proof.
  intros Hparse Hranked Hlen.
  destruct (part1_unfold _ _ _ Hparse Hranked)
    as (ds & m & rt & Hu & Hloop & Hwf & Hl & Hconn & Hpart1).
  exists ds, m. split_and!; [done| |done|].
  { rewrite length_take. lia. }
  intros H3.
  destruct (product_of_three_largest_spec (root_sizes ds))
    as (a & b & c & rest & Hperm & Hcb & Hba & Hrest & Hprod).
  { unfold root_sizes. by rewrite length_fmap. }
  exists a, b, c, rest. split_and!; try done. by rewrite Hpart1.
Qed.

(** C7. Mode A precondition violation: when there are fewer than 1000
    candidate edges, or when fewer than 3 roots remain after the first
    1000 attempts, [part1] does not return a product: it raises
    [IndexError], from indexing the list of root sizes at a position it
    does not have. *)
Theorem part1_precondition_error data coordinates es :
  parse_coordinates data = Ok coordinates →
  ranked_edges coordinates = Ok es →
  (length es < 1000 ∨
   ∃ ds m,
     unions (take 1000 es) (DisjointSet_init (length coordinates))
       = Ok (ds, m) ∧
     length (roots ds) < 3) →
  part1 data = Raise IndexError.
Proof.
  intros Hparse Hranked Hpre.
  destruct (part1_unfold _ _ _ Hparse Hranked)
    as (ds & m & rt & Hu & Hloop & Hwf & Hl & Hconn & ->).
  apply product_of_three_largest_short.
  unfold root_sizes. rewrite length_fmap.
  destruct Hpre as [Hshort|(ds' & m' & Hu' & Hroots)].
  - rewrite take_ge in Hconn by lia.
    enough (length (roots ds) ≤ 1) by lia.
    apply (roots_le_1 rt); [done|]. rewrite Hl. intros u v Huv.
    apply (ranked_edges_pairs _ _ Hranked) in Huv as (e & He & <- & <-).
    by apply Hconn.
  - rewrite Hu in Hu'. by simplify_eq.
Qed.
Lemma edge_of_x coordinates e :
  edge_of coordinates e →
  ∃ cx cy x0 y0,
    coordinates !! (e.1.2) = Some cx ∧ cx !! 0 = Some x0 ∧
    coordinates !! (e.2) = Some cy ∧ cy !! 0 = Some y0.
Proof.
  intros (ci & cj & Hi & Hj & Hd). exists ci, cj.
  unfold_euclidean_distance in Hd. unfold getitem in Hd.
  destruct (ci !! 0) as [a0|] eqn:Ha; [|done]. cbn in Hd.
  destruct (cj !! 0) as [b0|] eqn:Hb; [|done]. by exists a0, b0.
Qed.

(** The loop of [part2], started with the counter at the number of roots:
    either it returns at an edge that merges the last two circuits, or it
    runs through all the edges and at least two circuits are left. *)
Lemma connect_all_spec coordinates rt ds es :
  wf_with rt ds → length (parent ds) = length coordinates →
  in_range (length coordinates) es → Forall (edge_of coordinates) es →
  2 ≤ length (roots ds) →
  (∃ pre d x y post ds1 m ds2 cx cy x0 y0,
     es = pre ++ (d, x, y) :: post ∧
     unions pre ds = Ok (ds1, m) ∧ length (roots ds1) = 2 ∧
     union ds1 x y = Ok (ds2, true) ∧
     coordinates !! x = Some cx ∧ cx !! 0 = Some x0 ∧
     coordinates !! y = Some cy ∧ cy !! 0 = Some y0 ∧
     connect_all coordinates es ds (Z.of_nat (length (roots ds)))
       = Ok (Some (x0 * y0)%Z)) ∨
  (∃ ds' m rt',
     unions es ds = Ok (ds', m) ∧ wf_with rt' ds' ∧
     length (parent ds') = length (parent ds) ∧
     (∀ u v, rt u = rt v → rt' u = rt' v) ∧
     (∀ e, e ∈ es → rt' (e.1.2) = rt' (e.2)) ∧
     2 ≤ length (roots ds') ∧
     connect_all coordinates es ds (Z.of_nat (length (roots ds)))
       = Ok None).
Proof.
  revert rt ds. induction es as [|[[d x] y] es IH];
    intros rt ds Hwf Hl Hin Hedges H2.
  { right. exists ds, 0, rt. split_and!; try done.
    intros e He. by apply not_elem_of_nil in He. }
  destruct (Hin (d, x, y) (list_elem_of_here _ _)) as [Hx Hy].
  cbn in Hx, Hy. rewrite <- Hl in Hx, Hy.
  apply Forall_cons in Hedges as [Hedge Hedges].
  destruct (union_step rt ds x y Hwf Hx Hy)
    as (ds1 & b & rt1 & Hu & Hwf1 & Hl1 & Hmono1 & Hxy & _ & Hroots1).
  assert (Hin1 : in_range (length coordinates) es).
  { intros e He. apply Hin. by right. }
  assert (Hl1' : length (parent ds1) = length coordinates) by congruence.
  destruct (decide (b = true ∧ length (roots ds1) = 1)) as [[-> H1]|Hgo].
  { left. destruct (edge_of_x _ _ Hedge)
      as (cx & cy & x0 & y0 & Hcx & Hx0 & Hcy & Hy0). cbn in Hcx, Hcy.
    exists [], d, x, y, es, ds, 0, ds1, cx, cy, x0, y0.
    split_and!; try done; [lia|].
    cbn [connect_all]. rewrite Hu. cbn [mbind result_bind].
    rewrite bool_decide_true by lia.
    rewrite (getitem_Ok _ _ _ Hcx). cbn [mbind result_bind].
    rewrite (getitem_Ok _ _ _ Hx0). cbn [mbind result_bind].
    rewrite (getitem_Ok _ _ _ Hcy). cbn [mbind result_bind].
    by rewrite (getitem_Ok _ _ _ Hy0). }
  assert (H2' : 2 ≤ length (roots ds1)) by (destruct b; lia).
  assert (Hstep : connect_all coordinates ((d, x, y) :: es) ds
                    (Z.of_nat (length (roots ds)))
                  = connect_all coordinates es ds1
                      (Z.of_nat (length (roots ds1)))).
  { cbn [connect_all]. rewrite Hu. cbn [mbind result_bind]. destruct b.
    - rewrite bool_decide_false by lia. f_equal. lia.
    - f_equal. lia. }
  destruct (IH rt1 ds1 Hwf1 Hl1' Hin1 Hedges H2')
    as [(pre & d' & x' & y' & post & ds2 & m & ds3 & cx & cy & x0 & y0
         & -> & Hpre & Hr2 & Hu2 & Hcx & Hx0 & Hcy & Hy0 & Hres)
       |(ds' & m & rt' & Hus & Hwf' & Hl' & Hmono' & Hconn & Hr' & Hres)].
  - left.
    exists ((d, x, y) :: pre), d', x', y', post, ds2,
      (if b then S m else m), ds3, cx, cy, x0, y0.
    split_and!; try done; [|by etrans; [exact Hstep|]].
    cbn. rewrite Hu. cbn. by rewrite Hpre.
  - right. exists ds', (if b then S m else m), rt'.
    split_and!; try done.
    + cbn. rewrite Hu. cbn. by rewrite Hus.
    + congruence.
    + auto.
    + intros e [->|He]%elem_of_cons; [cbn; auto|auto].
    + by etrans; [exact Hstep|].
Qed.

(** C2. Mode B ([part2]): on an input with at least two points, the
    ranked edges split as [pre ++ (d, x, y) :: post] where the calls of
    [union] on [pre], in ranked order, merge [m = n - 2] times (so the
    counter, decremented on merging calls only, still reads 2 after
    [pre]), the call on [(x, y)] merges, and [part2] returns the product
    of the first coordinates of the points [x] and [y]. *)
Theorem part2_correct data coordinates es :
  parse_coordinates data = Ok coordinates →
  ranked_edges coordinates = Ok es →
  2 ≤ length coordinates →
  ∃ pre d x y post ds m ds' cx cy x0 y0,
    es = pre ++ (d, x, y) :: post ∧
    unions pre (DisjointSet_init (length coordinates)) = Ok (ds, m) ∧
    m + 2 = length coordinates ∧
    union ds x y = Ok (ds', true) ∧
    coordinates !! x = Some cx ∧ cx !! 0 = Some x0 ∧
    coordinates !! y = Some cy ∧ cy !! 0 = Some y0 ∧
    part2 data = Ok (x0 * y0)%Z.
Proof.
  intros Hparse Hranked Hn.
  pose proof (ranked_edges_in_range _ _ Hranked) as Hin.
  destruct (ranked_edges_spec _ _ Hranked) as [_ Hedges].
  set (n := length coordinates) in *.
  assert (Hroots : length (roots (DisjointSet_init n)) = n).
  { by rewrite roots_init, length_seq. }
  assert (Hlen : length (parent (DisjointSet_init n)) = n).
  { cbn. by rewrite length_seq. }
  destruct (connect_all_spec coordinates id (DisjointSet_init n) es
              (wf_init n) Hlen Hin Hedges)
    as [(pre & d & x & y & post & ds & m & ds' & cx & cy & x0 & y0
         & -> & Hpre & Hr2 & Hu & Hcx & Hx0 & Hcy & Hy0 & Hres)
       |(ds' & m & rt' & Hus & Hwf' & Hl' & _ & Hconn & Hr' & _)].
  { lia. }
  - exists pre, d, x, y, post, ds, m, ds', cx, cy, x0, y0.
    split_and!; try done.
    + destruct (unions_spec id (DisjointSet_init n) pre (wf_init n))
        as (ds1 & m1 & rt1 & Hu1 & _ & _ & _ & _ & Hcount).
      { rewrite Hlen. intros e He. apply Hin, elem_of_app. by left. }
      rewrite Hpre in Hu1. simplify_eq. lia.
    + unfold_part2. rewrite Hparse. cbn [mbind result_bind].
      rewrite Hranked. cbn [mbind result_bind]. fold n.
      rewrite <- Hroots at 2. by rewrite Hres.
  - exfalso. enough (length (roots ds') ≤ 1) by lia.
    apply (roots_le_1 rt'); [done|]. rewrite Hl', Hlen.
    intros u v Huv.
    apply (ranked_edges_pairs _ _ Hranked) in Huv as (e & He & <- & <-).
    by apply Hconn.
Qed.

(** C9 (what the code does). The statement after the loop of [part2],
    [return -1], is reached exactly on the inputs of at most one point:
    there are then no candidate edges, no [union] is called, nothing is
    raised and [part2] returns the integer -1; on two points or more, once
    the edges are ranked, the loop returns from inside and the statement
    after it is not reached. *)
Theorem part2_boundary data coordinates :
  parse_coordinates data = Ok coordinates →
  (length coordinates ≤ 1 →
   ranked_edges coordinates = Ok [] ∧ part2 data = Ok (-1)%Z) ∧
  (2 ≤ length coordinates →
   ∀ es, ranked_edges coordinates = Ok es →
     ∃ v,
       connect_all coordinates es (DisjointSet_init (length coordinates))
         (Z.of_nat (length coordinates)) = Ok (Some v) ∧
       part2 data = Ok v).
Proof.
  intros Hparse. split.
  - intros Hn.
    assert (Hr : ranked_edges coordinates = Ok []).
    { unfold_ranked_edges. unfold_all_distances.
      destruct coordinates as [|c [|c' l]]; [done..|cbn in Hn; lia]. }
    split; [done|].
    unfold_part2. rewrite Hparse. cbn [mbind result_bind]. by rewrite Hr.
  - intros Hn es Hranked.
    pose proof (ranked_edges_in_range _ _ Hranked) as Hin.
    destruct (ranked_edges_spec _ _ Hranked) as [_ Hedges].
    assert (Hroots : length (roots (DisjointSet_init (length coordinates)))
                     = length coordinates).
    { by rewrite roots_init, length_seq. }
    assert (Hlen : length (parent (DisjointSet_init (length coordinates)))
                   = length coordinates).
    { cbn. by rewrite length_seq. }
    destruct (connect_all_spec coordinates id
                (DisjointSet_init (length coordinates)) es
                (wf_init _) Hlen Hin Hedges)
      as [(pre & d & x & y & post & ds & m & ds' & cx & cy & x0 & y0
           & _ & _ & _ & _ & _ & _ & _ & _ & Hres)
         |(ds' & m & rt' & Hus & Hwf' & Hl' & _ & Hconn & Hr' & _)].
    { lia. }
    + rewrite Hroots in Hres. exists (x0 * y0)%Z. split; [done|].
      unfold_part2. rewrite Hparse. cbn [mbind result_bind].
      rewrite Hranked. cbn [mbind result_bind]. by rewrite Hres.
    + exfalso. enough (length (roots ds') ≤ 1) by lia.
      apply (roots_le_1 rt'); [done|]. rewrite Hl', Hlen.
      intros u v Huv.
      apply (ranked_edges_pairs _ _ Hranked) in Huv as (e & He & <- & <-).
      by apply Hconn.
Qed.

End driver_claims.

Lemma part1_correct_witness :
  ∃ a b c, part1_exact row_and_two_input = Ok (a * b * c).
Proof.
  edestruct (part1_correct exact_pow_half Z.eqb Z.ltb row_and_two_input)
    as (ds & m & Hu & _ & _ & Hprod).
  - vm_compute. reflexivity.
  - vm_compute. reflexivity.
  - apply Nat.leb_le. vm_compute. reflexivity.
  - vm_compute in Hu. injection Hu as <- <-.
    destruct Hprod as (a & b & c & rest & _ & _ & _ & _ & Hprod).
    + vm_compute. lia.
    + exists a, b, c. exact Hprod.
Defined.

Lemma part1_precondition_error_witness :
  part1_exact four_input = Raise IndexError ∧
  part1_exact row_input = Raise IndexError.
Proof.
  split.
  - eapply (part1_precondition_error exact_pow_half Z.eqb Z.ltb four_input).
    + vm_compute. reflexivity.
    + vm_compute. reflexivity.
    + left. vm_compute. lia.
  - eapply (part1_precondition_error exact_pow_half Z.eqb Z.ltb row_input).
    + vm_compute. reflexivity.
    + vm_compute. reflexivity.
    + right. eexists _, _. split.
      * vm_compute. reflexivity.
      * vm_compute. lia.
Defined.

Lemma part2_correct_witness :
  ∃ x0 y0 : Z, part2_exact four_input = Ok (x0 * y0)%Z.
Proof.
  edestruct (part2_correct exact_pow_half Z.eqb Z.ltb four_input)
    as (pre & d & x & y & post & ds & m & ds' & cx & cy & x0 & y0 & H).
  - vm_compute. reflexivity.
  - vm_compute. reflexivity.
  - vm_compute. lia.
  - exists x0, y0. apply H.
Defined.

(** C9 fails on the code: on a single point [part2] raises nothing and
    returns -1 from the statement its comment calls never reached; -1 is no
    product of two coordinates of that input, and it is also what [part2]
    returns, as the product of the first coordinates -1 and 1, on an input
    of two points. *)
Lemma part2_single_point_returns_ordinary_value :
  part2_exact "5,5,5" = Ok (-1)%Z ∧
  part2_exact "-1,0,0
1,0,0" = part2_exact "5,5,5".
Proof. split; vm_compute; reflexivity. Qed.

Lemma part2_boundary_witness :
  (ranked_edges exact_pow_half Z.eqb Z.ltb [[5; 5; 5]%Z] = Ok [] ∧
   part2_exact "5,5,5" = Ok (-1)%Z) ∧
  ∃ v, part2_exact four_input = Ok v.
Proof.
  split.
  - apply (part2_boundary exact_pow_half Z.eqb Z.ltb "5,5,5" [[5; 5; 5]%Z]).
    + vm_compute. reflexivity.
    + cbn. lia.
  - edestruct (proj2 (part2_boundary exact_pow_half Z.eqb Z.ltb four_input
                        _ ltac:(vm_compute; reflexivity)))
      as (v & _ & Hv).
    + vm_compute. lia.
    + vm_compute. reflexivity.
    + exists v. exact Hv.
Defined.

(** ** The loader's errors *)

Lemma int_Raise tok e : int tok = Raise e → e = ValueError.
Proof.
  unfold int.
  destruct (match strip (String.list_ascii_of_string tok) with
            | [] => _ | _ => _ end); [|by intros [= <-]].
  case_bool_decide; [|done]. by intros [= <-].
Qed.

Lemma comprehension_int_Raise toks e :
  comprehension int toks = Raise e → e = ValueError.
Proof.
  intros (tok & _ & H)%comprehension_Raise_inv. by apply int_Raise in H.
Qed.

(** C6 fails on the code: a line with two or with four integer fields is
    accepted, and yields a tuple of two or of four integers. *)
Lemma parse_coordinates_accepts_wrong_field_count :
  parse_coordinates "1,2" = Ok [[1; 2]%Z] ∧
  parse_coordinates "1,2,3
4,5,6,7" = Ok [[1; 2; 3]; [4; 5; 6; 7]]%Z.
Proof. split; vm_compute; reflexivity. Qed.

Lemma comprehension_total {A B} (f : A → result B) l :
  (∀ x, x ∈ l → ∃ y, f x = Ok y) → ∃ ys, comprehension f l = Ok ys.
Proof.
  induction l as [|x l IH]; intros Hl; cbn; [by eexists|].
  destruct (Hl x (list_elem_of_here _ _)) as [y ->].
  destruct IH as [ys ->]; [intros z Hz; apply Hl; by right|].
  cbn. by eexists.
Qed.

(** C6 (as the code has it). [parse_coordinates] raises [ValueError], and
    returns no list at all, on every input with a line one of whose
    comma-separated fields [int] rejects; and that is the only check: when
    [int] accepts every field of every line it returns, whatever the number
    of fields of each line, one tuple per line holding the integers of the
    fields of that line. *)
Theorem parse_coordinates_rejects_non_integer data :
  ((∃ line tok,
      line ∈ splitlines data ∧ tok ∈ split line "," ∧
      int tok = Raise ValueError) →
   parse_coordinates data = Raise ValueError) ∧
  ((∀ line tok,
      line ∈ splitlines data → tok ∈ split line "," → ∃ z, int tok = Ok z) →
   ∃ coordinates,
     parse_coordinates data = Ok coordinates ∧
     Forall2 (λ line c, Forall2 (λ tok z, int tok = Ok z) (split line ",") c)
             (splitlines data) coordinates).
Proof.
  split.
  - intros (line & tok & Hline & Htok & Hint). unfold parse_coordinates.
    destruct (comprehension_Raise int (split line ",") tok ValueError
                Htok Hint) as [e He].
    assert (e = ValueError) as -> by (by apply comprehension_int_Raise in He).
    destruct (comprehension_Raise
                (λ line, comprehension int (split line ","))
                (splitlines data) line ValueError Hline He) as [e' He'].
    rewrite He'. f_equal.
    apply comprehension_Raise_inv in He' as (line' & _ & He').
    by apply comprehension_int_Raise in He'.
  - intros Hall.
    destruct (comprehension_total
                (λ line, comprehension int (split line ","))
                (splitlines data)) as [coordinates Hc].
    { intros line Hline. apply comprehension_total.
      intros tok Htok. by apply (Hall line). }
    exists coordinates. split; [done|].
    apply comprehension_Ok in Hc.
    eapply Forall2_impl; [exact Hc|]. cbn. intros line c.
    apply comprehension_Ok.
Qed.

Lemma parse_coordinates_rejects_non_integer_witness :
  parse_coordinates "1,2,3
4,x,6" = Raise ValueError ∧
  ∃ coordinates,
    parse_coordinates "1,2
3,4,5,6" = Ok coordinates ∧
    Forall2 (λ line c, Forall2 (λ tok z, int tok = Ok z) (split line ",") c)
            (splitlines "1,2
3,4,5,6") coordinates.
Proof.
  split.
  - apply (proj1 (parse_coordinates_rejects_non_integer _)).
    exists "4,x,6", "x". split_and!.
    + vm_compute. apply list_elem_of_further, list_elem_of_here.
    + vm_compute. apply list_elem_of_further, list_elem_of_here.
    + vm_compute. reflexivity.
  - apply (proj2 (parse_coordinates_rejects_non_integer _)).
    intros line tok Hline Htok. vm_compute in Hline.
    apply elem_of_cons in Hline as [->|Hline].
    { vm_compute in Htok.
      repeat (apply elem_of_cons in Htok as [->|Htok];
              [eexists; vm_compute; reflexivity|]).
      by apply not_elem_of_nil in Htok. }
    apply elem_of_cons in Hline as [->|Hline].
    { vm_compute in Htok.
      repeat (apply elem_of_cons in Htok as [->|Htok];
              [eexists; vm_compute; reflexivity|]).
      by apply not_elem_of_nil in Htok. }
    by apply not_elem_of_nil in Hline.
Defined.

(** ** The order of the ranked edges *)

Lemma NoDup_index_pairs n : NoDup (index_pairs n).
Proof.
  unfold index_pairs. apply NoDup_bind; [| |apply NoDup_seq].
  - intros i1 i2 [i j] _ _ H1 H2.
    apply list_elem_of_bind in H1 as (j1 & H1 & _).
    apply list_elem_of_bind in H2 as (j2 & H2 & _).
    apply list_elem_of_singleton in H1, H2. congruence.
  - intros i _. apply NoDup_bind; [| |apply NoDup_seq].
    + intros j1 j2 [i' j] _ _ H1 H2.
      apply list_elem_of_singleton in H1, H2. congruence.
    + intros j _. apply NoDup_singleton.
Qed.

Lemma StronglySorted_strengthen {A B} (R R' : A → A → Prop) (f : A → B) l :
  (∀ a b, R a b → f a ≠ f b → R' a b) →
  NoDup (f <$> l) → StronglySorted R l → StronglySorted R' l.
Proof.
  intros HR Hnd Hl. induction Hl as [|a l Hl IH Ha]; [constructor|].
  cbn in Hnd. apply NoDup_cons in Hnd as [Hnotin Hnd].
  constructor; [by apply IH|].
  apply Forall_forall. intros b Hb. apply HR.
  - by apply (proj1 (Forall_forall _ _) Ha).
  - intros Heq. apply Hnotin. rewrite Heq. by apply list_elem_of_fmap_2.
Qed.

Section ranking_order.

Context {float : Type}.
Variable pow_half : Z → result float.
Variable float_eq float_lt : float → float → bool.

Local Ltac unfold_ranked_before := unfold ranked_before.
Local Abbreviation ranked_before := (ranked_before float_eq float_lt).

(** The distances are numbers: [==] and [<] on them are those of a total
    preorder (no NaN among them). *)
Hypothesis float_eq_spec :
  ∀ a b, float_eq a b = true ↔ float_lt a b = false ∧ float_lt b a = false.
Hypothesis float_lt_asym :
  ∀ a b, float_lt a b = true → float_lt b a = false.
Hypothesis float_lt_cotrans :
  ∀ a b c, float_lt a c = true → float_lt a b = true ∨ float_lt b c = true.

Lemma float_eq_not_lt a b : float_eq a b = true → float_lt a b = false.
Proof. intros H. by apply float_eq_spec in H as [? ?]. Qed.

Lemma float_eq_not_gt a b : float_eq a b = true → float_lt b a = false.
Proof. intros H. by apply float_eq_spec in H as [? ?]. Qed.

Lemma float_eq_trans a b c :
  float_eq a b = true → float_eq b c = true → float_eq a c = true.
Proof.
  intros [Hab Hba]%float_eq_spec [Hbc Hcb]%float_eq_spec.
  apply float_eq_spec. split.
  - destruct (float_lt a c) eqn:H; [|done].
    destruct (float_lt_cotrans a b c H); congruence.
  - destruct (float_lt c a) eqn:H; [|done].
    destruct (float_lt_cotrans c b a H); congruence.
Qed.

Lemma edge_lt_true e1 e2 :
  edge_lt float_eq float_lt e1 e2 = true ↔ ranked_before e1 e2.
Proof.
  destruct e1 as [[d1 i1] j1], e2 as [[d2 i2] j2].
  unfold_ranked_before. unfold edge_lt. cbn [fst snd].
  destruct (float_eq d1 d2) eqn:Heq.
  - pose proof (float_eq_not_lt _ _ Heq) as Hnlt. split.
    + intros H. right. split; [done|].
      repeat case_bool_decide; try done; lia.
    + intros [Hlt|[_ L]]; [congruence|].
      repeat case_bool_decide; try done; lia.
  - split; [by left|]. by intros [?|[? _]].
Qed.

Lemma ranked_before_asym e1 e2 :
  ranked_before e1 e2 → ranked_before e2 e1 → False.
Proof.
  intros [H1|[H1 L1]] [H2|[H2 L2]].
  - apply float_lt_asym in H1. congruence.
  - apply float_eq_not_gt in H2. congruence.
  - apply float_eq_not_gt in H1. congruence.
  - lia.
Qed.

Lemma ranked_before_cotrans e1 e2 e3 :
  ranked_before e1 e3 → ranked_before e1 e2 ∨ ranked_before e2 e3.
Proof.
  intros [H|[H L]].
  { destruct (float_lt_cotrans _ (e2.1.1) _ H); [left|right]; by left. }
  destruct (float_lt (e1.1.1) (e2.1.1)) eqn:H12; [by left; left|].
  destruct (float_lt (e2.1.1) (e1.1.1)) eqn:H21.
  - right. left.
    destruct (float_lt_cotrans _ (e3.1.1) _ H21) as [H23|H31]; [done|].
    apply float_eq_not_gt in H. congruence.
  - assert (Heq12 : float_eq (e1.1.1) (e2.1.1) = true).
    { by apply float_eq_spec. }
    assert (Heq23 : float_eq (e2.1.1) (e3.1.1) = true).
    { apply (float_eq_trans _ (e1.1.1)); [|done].
      apply float_eq_spec. by split. }
    destruct (decide (e1.1.2 < e2.1.2 ∨ (e1.1.2 = e2.1.2 ∧ e1.2 < e2.2)));
      [left|right]; right; (split; [done|lia]).
Qed.

Lemma edge_lt_asym a b :
  edge_lt float_eq float_lt a b = true →
  edge_lt float_eq float_lt b a = false.
Proof.
  intros H%edge_lt_true.
  destruct (edge_lt float_eq float_lt b a) eqn:H'; [|done].
  apply edge_lt_true in H'. by destruct (ranked_before_asym a b).
Qed.

Lemma edge_not_after_trans a b c :
  not_after (edge_lt float_eq float_lt) a b →
  not_after (edge_lt float_eq float_lt) b c →
  not_after (edge_lt float_eq float_lt) a c.
Proof.
  unfold not_after. intros Hba Hcb.
  destruct (edge_lt float_eq float_lt c a) eqn:Hca; [|done].
  apply edge_lt_true in Hca.
  destruct (ranked_before_cotrans c b a Hca) as [H|H];
    apply edge_lt_true in H; congruence.
Qed.

Lemma not_after_ranked_before a b :
  not_after (edge_lt float_eq float_lt) a b →
  endpoints a ≠ endpoints b → ranked_before a b.
Proof.
  unfold not_after. intros Hba Hne.
  destruct a as [[d1 i1] j1], b as [[d2 i2] j2].
  unfold_ranked_before. unfold edge_lt, endpoints in *. cbn [fst snd] in *.
  destruct (float_eq d2 d1) eqn:Heq.
  - right. split.
    + apply float_eq_spec in Heq as [? ?]. by apply float_eq_spec.
    + repeat case_bool_decide; try done;
        destruct (decide (i1 = i2)); try lia.
      destruct (decide (j1 = j2)); [congruence|lia].
  - left. destruct (float_lt d1 d2) eqn:Hlt; [done|].
    assert (float_eq d2 d1 = true); [|congruence].
    by apply float_eq_spec.
Qed.

Lemma euclidean_distance_squared p q :
  euclidean_distance pow_half p q
  = match squared_distance p q with
    | Some z => pow_half z
    | None => Raise IndexError
    end.
Proof.
  unfold euclidean_distance, squared_distance, getitem.
  destruct (p !! 0), (q !! 0), (p !! 1), (q !! 1), (p !! 2), (q !! 2);
    done.
Qed.

Lemma edge_of_distance coordinates e :
  edge_of pow_half coordinates e → edge_distance pow_half coordinates e.
Proof.
  intros (ci & cj & Hi & Hj & Hd). rewrite euclidean_distance_squared in Hd.
  destruct (squared_distance ci cj) as [z|] eqn:Hz; [|done].
  by exists ci, cj, z.
Qed.

(** C5. Distance ranking: the edges that [part1] and [part2] drive into
    the partition are the pairs [i < j] of the enumeration, each once; each
    carries the Euclidean distance of its two points, the square root
    ([** 0.5]) of the sum of the squared differences of their coordinates;
    they stand in order of non-decreasing distance, equal distances in the
    order of the enumeration ([i] ascending, then [j] ascending); and this
    fixes the sequence: a rerun, or any other arrangement of the same edges
    that respects the order, is the same list. *)
Theorem ranked_edges_sorted coordinates es :
  ranked_edges pow_half float_eq float_lt coordinates = Ok es →
  endpoints <$> es ≡ₚ index_pairs (length coordinates) ∧
  Forall (edge_distance pow_half coordinates) es ∧
  StronglySorted ranked_before es ∧
  (∀ es', ranked_edges pow_half float_eq float_lt coordinates = Ok es' →
          es' = es) ∧
  (∀ es', es' ≡ₚ es → StronglySorted ranked_before es' → es' = es).
Proof.
  intros Hranked.
  destruct (ranked_edges_spec _ _ _ _ _ Hranked) as [Hperm Hedges].
  assert (Hsorted : StronglySorted ranked_before es).
  { apply (StronglySorted_strengthen
             (not_after (edge_lt float_eq float_lt)) _ endpoints).
    - apply not_after_ranked_before.
    - rewrite Hperm. apply NoDup_index_pairs.
    - unfold ranked_edges in Hranked.
      destruct (all_distances pow_half coordinates) as [ds|]; [|done].
      cbn in Hranked. injection Hranked as <-.
      apply sort_sorted; [apply edge_lt_asym|apply edge_not_after_trans]. }
  split_and!; try done.
  - eapply Forall_impl; [exact Hedges|]. apply edge_of_distance.
  - intros es' Hes'. congruence.
  - intros es' Hperm' Hsorted'.
    apply (StronglySorted_unique_strong ranked_before); try done.
    intros e1 e2 _ _ H12 H21. by destruct (ranked_before_asym e1 e2).
Qed.

End ranking_order.

Lemma ranked_edges_sorted_witness :
  ∃ es, ranked_edges exact_pow_half Z.eqb Z.ltb square_input = Ok es ∧
        Forall (edge_distance exact_pow_half square_input) es ∧
        StronglySorted (ranked_before Z.eqb Z.ltb) es.
Proof.
  eexists. split; [vm_compute; reflexivity|].
  refine ((λ H, conj (proj1 (proj2 H)) (proj1 (proj2 (proj2 H))))
    (ranked_edges_sorted exact_pow_half Z.eqb Z.ltb _ _ _
       square_input _ _)).
  - intros a b. rewrite Z.eqb_eq, !Z.ltb_ge. lia.
  - intros a b. rewrite Z.ltb_lt, Z.ltb_ge. lia.
  - intros a b c. rewrite !Z.ltb_lt. lia.
  - vm_compute. reflexivity.
Defined.

(** * Further properties of the disjoint-set structure *)

Lemma rank_log_set_parent ds p' :
  rank_log ds →
  (∀ y r, path_to_root (parent ds) y r ↔ path_to_root p' y r) →
  rank_log (set_parent ds p').
Proof.
  intros Hlog Hiff r Hr. cbn in *.
  apply Hlog. by apply (same_paths_same_roots _ _ Hiff).
Qed.

Lemma rank_log_link ds p big small :
  rank_log ds → length p = length (parent ds) →
  length (rank ds) = length (parent ds) →
  length (size ds) = length (parent ds) →
  (∀ r, parent ds !! r = Some r ↔ p !! r = Some r) →
  p !! big = Some big → p !! small = Some small → big ≠ small →
  rank_log (link ds p big small).
Proof.
  intros Hlog Hlp Hlr Hls Hroots Hbig Hsmall Hne r Hr.
  unfold link in *. cbn [parent rank size] in *.
  assert (Hbl : big < length (parent ds)).
  { rewrite <- Hlp. eauto using lookup_lt_Some. }
  destruct (decide (r = small)) as [->|Hrs].
  { rewrite list_lookup_insert_eq in Hr
      by (rewrite Hlp, <- Hlp; eauto using lookup_lt_Some).
    congruence. }
  rewrite list_lookup_insert_ne in Hr by done.
  pose proof (Hlog r (proj2 (Hroots r) Hr)) as Hr'.
  pose proof (Hlog big (proj2 (Hroots big) Hbig)) as Hb.
  pose proof (Hlog small (proj2 (Hroots small) Hsmall)) as Hs.
  destruct (decide (r = big)) as [->|Hrb].
  - rewrite list_lookup_total_insert_eq by lia.
    case_decide as Heq.
    + rewrite list_lookup_total_insert_eq by lia.
      rewrite Nat.add_1_r, Nat.pow_succ_r'. rewrite <- Heq in Hs. lia.
    + lia.
  - rewrite list_lookup_total_insert_ne by done.
    case_decide; [rewrite list_lookup_total_insert_ne by done|]; done.
Qed.

Lemma reachable_rank_log n ds : reachable n ds → rank_log ds.
Proof.
  induction 1 as [|ds x ds' r Hreach IH Hf|ds x y ds' b Hreach IH Hu].
  - intros r Hr. cbn in *. apply lookup_seq in Hr as [_ Hr].
    rewrite !lookup_total_replicate_2 by done. cbn. lia.
  - destruct (reachable_wf _ _ Hreach) as [[rt Hwf] Hn].
    pose proof (find_Ok_lt _ _ _ _ Hf) as Hx.
    destruct (find_spec rt ds x Hwf Hx) as (p' & Hf' & _ & _ & Hiff & _).
    rewrite Hf in Hf'. simplify_eq. by apply rank_log_set_parent.
  - destruct (reachable_wf _ _ Hreach) as [[rt Hwf] Hn].
    destruct (union_Ok_lt _ _ _ _ _ _ Hwf Hu) as [Hx Hy].
    destruct (union_spec rt ds x y Hwf Hx Hy) as (p2 & Hl & Hiff & Hwf2 & Hcase).
    case_decide as Heq.
    { rewrite Hu in Hcase. simplify_eq. by apply rank_log_set_parent. }
    destruct Hcase as [Hu' _]. rewrite Hu in Hu'. simplify_eq.
    assert (Hrx : p2 !! rt x = Some (rt x)).
    { apply (wf_rt_is_root rt (set_parent ds p2)); [done|cbn; lia]. }
    assert (Hry : p2 !! rt y = Some (rt y)).
    { apply (wf_rt_is_root rt (set_parent ds p2)); [done|cbn; lia]. }
    apply rank_log_link; try done; try apply Hwf.
    + by apply same_paths_same_roots.
    + unfold pick. by case_decide.
    + unfold pick. by case_decide.
    + unfold pick. case_decide; cbn; congruence.
Qed.

(** The recursion of [find] only needs as many nested calls as the ranks
    between [x] and its root allow. *)
Lemma find_rec_fuel ds x r fuel fuel' :
  rank_ok (parent ds) (rank ds) → path_to_root (parent ds) x r →
  rank ds !!! r - rank ds !!! x < fuel →
  rank ds !!! r - rank ds !!! x < fuel' →
  find_rec fuel ds x = find_rec fuel' ds x.
Proof.
  intros Hok. revert fuel' x.
  induction fuel as [|fuel IH]; intros [|fuel'] x Hpath Hf Hf'; try lia.
  cbn [find_rec].
  inversion Hpath as [r0 Hr|x0 px r0 Hx Hne Hp]; subst.
  - rewrite (getitem_Ok _ _ _ Hr). cbn. by rewrite bool_decide_false by naive_solver.
  - rewrite (getitem_Ok _ _ _ Hx). cbn. rewrite bool_decide_true by done.
    pose proof (Hok x px Hx Hne) as Hlt.
    assert (Hle : rank ds !!! px ≤ rank ds !!! r).
    { destruct (decide (px = r)) as [->|Hpr]; [done|].
      pose proof (rank_ok_path _ _ _ _ Hok Hp Hpr). lia. }
    by rewrite (IH fuel' px Hp) by lia.
Qed.

Lemma reachable_rank_le_log2 n ds x :
  reachable n ds → x < n → rank ds !!! x ≤ Nat.log2 n.
Proof.
  intros Hreach Hx.
  destruct (reachable_wf _ _ Hreach) as [[rt Hwf] Hn].
  pose proof (reachable_rank_log _ _ Hreach) as Hlog.
  assert (Hroot : parent ds !! rt x = Some (rt x)).
  { apply (wf_rt_is_root rt ds); [done|lia]. }
  assert (Hle : rank ds !!! x ≤ rank ds !!! rt x).
  { destruct (decide (x = rt x)) as [<-|Hne]; [done|].
    assert (rank ds !!! x < rank ds !!! rt x); [|lia].
    eapply rank_ok_path; [|apply (wf_rt rt ds Hwf); lia|done].
    intros ????. by apply (wf_rank_incr rt ds Hwf). }
  assert (Hsize : size ds !!! rt x ≤ n).
  { rewrite (wf_size_count rt ds Hwf) by done. unfold count_root.
    rewrite Hn. etrans; [apply length_filter|]. by rewrite length_seq. }
  specialize (Hlog _ Hroot).
  etrans; [exact Hle|]. apply Nat.log2_le_pow2; lia.
Qed.

(** X2. Union by rank, on every state reached from [DisjointSet(n)]: the
    rank grows strictly along every parent pointer, and a root of rank [k]
    records a size of at least [2 ^ k] and at most [n]. *)
Theorem rank_size_invariant n ds :
  reachable n ds →
  (∀ x px, parent ds !! x = Some px → px ≠ x →
           rank ds !!! x < rank ds !!! px) ∧
  (∀ r, parent ds !! r = Some r →
        2 ^ (rank ds !!! r) ≤ size ds !!! r ∧ size ds !!! r ≤ n).
Proof.
  intros Hreach.
  destruct (reachable_wf _ _ Hreach) as [[rt Hwf] Hn].
  split; [apply (wf_rank_incr rt ds Hwf)|].
  intros r Hr. split; [by apply (reachable_rank_log n)|].
  rewrite (wf_size_count rt ds Hwf) by done. unfold count_root.
  rewrite Hn. etrans; [apply length_filter|]. by rewrite length_seq.
Qed.

Lemma rank_size_invariant_witness :
  (∀ x px, parent ds_chain !! x = Some px → px ≠ x →
           rank ds_chain !!! x < rank ds_chain !!! px) ∧
  (∀ r, parent ds_chain !! r = Some r →
        2 ^ (rank ds_chain !!! r) ≤ size ds_chain !!! r ∧
        size ds_chain !!! r ≤ 4).
Proof. apply (rank_size_invariant 4 ds_chain), ds_chain_reachable. Defined.

(** X3. On every state reached from [DisjointSet(n)], [find(x)] returns
    within [log2 n + 1] nested calls: that much recursion depth gives the
    same result as the unbounded recursion. *)
Theorem find_depth_logarithmic n ds x :
  reachable n ds → x < n →
  ∃ ds' r,
    find ds x = Ok (ds', r) ∧
    find_rec (S (Nat.log2 n)) ds x = Ok (ds', r).
Proof.
  intros Hreach Hx.
  destruct (reachable_wf _ _ Hreach) as [[rt Hwf] Hn].
  destruct (find_spec rt ds x Hwf) as (p' & Hf & _); [lia|].
  exists (set_parent ds p'), (rt x). split; [done|].
  rewrite <- Hf. unfold find.
  assert (Hrt : rank ds !!! rt x ≤ Nat.log2 n).
  { apply (reachable_rank_le_log2 n); [done|].
    rewrite <- Hn. apply (wf_rt_lt rt ds); [done|lia]. }
  pose proof (Nat.log2_le_lin n). 
  apply (find_rec_fuel ds x (rt x)).
  - intros ????. by apply (wf_rank_incr rt ds Hwf).
  - apply (wf_rt rt ds Hwf). lia.
  - lia.
  - lia.
Qed.

Lemma find_depth_logarithmic_witness :
  ∃ ds' r,
    find ds_chain 3 = Ok (ds', r) ∧
    find_rec (S (Nat.log2 4)) ds_chain 3 = Ok (ds', r).
Proof.
  apply (find_depth_logarithmic 4 ds_chain 3); [apply ds_chain_reachable|lia].
Defined.

Lemma find_out_of_range ds x :
  length (parent ds) ≤ x → find ds x = Raise IndexError.
Proof.
  intros Hx. unfold find. cbn [find_rec]. unfold getitem.
  by rewrite lookup_ge_None_2.
Qed.

(** X1. Bounds.  On every state reached from [DisjointSet(n)], [find(x)]
    and [union(x, y)] return when their (non-negative) arguments are below
    [n], and raise [IndexError], and nothing else, as soon as one is not. *)
Theorem find_union_bounds n ds x y :
  reachable n ds →
  (if decide (x < n) then ∃ ds' r, find ds x = Ok (ds', r)
   else find ds x = Raise IndexError) ∧
  (if decide (x < n ∧ y < n) then ∃ ds' b, union ds x y = Ok (ds', b)
   else union ds x y = Raise IndexError).
Proof.
  intros Hreach. destruct (reachable_wf _ _ Hreach) as [[rt Hwf] Hn].
  split.
  - case_decide as Hx.
    + destruct (find_spec rt ds x Hwf) as (p' & Hf & _); [lia|]. eauto.
    + apply find_out_of_range. lia.
  - case_decide as Hxy.
    + destruct Hxy as [Hx Hy].
      destruct (union_step rt ds x y Hwf) as (ds' & b & _ & Hu & _);
        [lia..|]. eauto.
    + unfold union. destruct (decide (x < n)) as [Hx|Hx].
      * destruct (find_spec rt ds x Hwf) as (p' & -> & _ & Hl & _); [lia|].
        cbn [mbind result_bind].
        rewrite find_out_of_range; [done|]. cbn. lia.
      * rewrite find_out_of_range; [done|lia].
Qed.

Lemma find_union_bounds_witness :
  (∃ ds' r, find ds_chain 3 = Ok (ds', r)) ∧
  union ds_chain 3 4 = Raise IndexError.
Proof.
  apply (find_union_bounds 4 ds_chain 3 4), ds_chain_reachable.
Defined.

(** X4. Shape.  On every state reached from [DisjointSet(n)] the three
    lists keep the length [n], and every entry of [parent] is an index
    below [n]. *)
Theorem reachable_shape n ds :
  reachable n ds →
  length (parent ds) = n ∧ length (rank ds) = n ∧ length (size ds) = n ∧
  Forall (λ px, px < n) (parent ds).
Proof.
  intros Hreach. destruct (reachable_wf _ _ Hreach) as [[rt Hwf] Hn].
  split_and!; [done|by rewrite (wf_len_rank rt ds Hwf)
              |by rewrite (wf_len_size rt ds Hwf)|].
  apply Forall_lookup. intros x px Hx.
  pose proof (lookup_lt_Some _ _ _ Hx) as Hlt.
  pose proof (wf_rt rt ds Hwf x Hlt) as Hpath.
  inversion Hpath as [r0 Hr E1 E2|x0 px' r0 Hx' Hne Hp E1 E2].
  - assert (px = x) by congruence. lia.
  - assert (px' = px) as -> by congruence.
    apply path_to_root_lt in Hp. lia.
Qed.

Lemma reachable_shape_witness :
  length (parent ds_chain) = 4 ∧ length (rank ds_chain) = 4 ∧
  length (size ds_chain) = 4 ∧ Forall (λ px, px < 4) (parent ds_chain).
Proof. apply (reachable_shape 4 ds_chain), ds_chain_reachable. Defined.

(** X5. Counting merges.  Whatever edges (with endpoints below [n]) are
    driven into a fresh [DisjointSet(n)], every [union] returns, the number
    of roots left plus the number of calls that returned [True] is [n], and
    so fewer than [n] calls can ever return [True]. *)
Theorem unions_merge_count {float} (es : list (@edge float)) n :
  in_range n es →
  ∃ ds m,
    unions es (DisjointSet_init n) = Ok (ds, m) ∧
    length (roots ds) + m = n ∧
    (0 < n → m < n).
Proof.
  intros Hin.
  destruct (unions_spec id (DisjointSet_init n) es (wf_init n))
    as (ds & m & rt & Hu & Hwf & Hl & _ & _ & Hcount).
  { cbn. by rewrite length_seq. }
  rewrite roots_init, length_seq in Hcount.
  cbn in Hl. rewrite length_seq in Hl.
  exists ds, m. split_and!; [done..|].
  intros Hn. pose proof (roots_ge_1 rt ds Hwf). lia.
Qed.

Lemma unions_merge_count_witness :
  ∃ ds m,
    unions three_edges (DisjointSet_init 4) = Ok (ds, m) ∧
    length (roots ds) + m = 4 ∧ (0 < 4 → m < 4).
Proof.
  apply (unions_merge_count three_edges 4).
  intros e He. unfold three_edges in He.
  repeat (apply elem_of_cons in He as [->|He]; [cbn; lia|]).
  by apply not_elem_of_nil in He.
Defined.

(** * Further properties of the distances and the drivers *)

Lemma length_bind_pair (i a m : nat) :
  length (seq a m ≫= λ j, [(i, j)]) = m.
Proof.
  revert a. induction m as [|m IH]; intros a; [done|].
  cbn [seq]. rewrite bind_cons, length_app, IH. done.
Qed.

Lemma length_index_pairs_upto n k :
  k ≤ n →
  2 * length (seq 0 k ≫= λ i, seq (i + 1) (n - (i + 1)) ≫= λ j, [(i, j)])
    + k * (k + 1) = 2 * n * k.
Proof.
  induction k as [|k IH]; intros Hk; [cbn; lia|].
  rewrite seq_S, bind_app, length_app. cbn [Nat.add].
  rewrite bind_cons. change ([] ≫= _) with (@nil (nat * nat)).
  rewrite app_nil_r, length_bind_pair.
  specialize (IH ltac:(lia)). nia.
Qed.

Lemma length_index_pairs n : 2 * length (index_pairs n) = n * (n - 1).
Proof.
  pose proof (length_index_pairs_upto n n ltac:(lia)) as H.
  unfold index_pairs. nia.
Qed.

Lemma root_sizes_pos rt ds :
  wf_with rt ds → Forall (λ s, 1 ≤ s) (root_sizes ds).
Proof.
  intros Hwf. unfold root_sizes. apply Forall_fmap, Forall_forall.
  intros r [Hr _]%list_elem_of_filter. cbn.
  pose proof (wf_rank_size rt ds Hwf r Hr). lia.
Qed.

Section distance_facts.

Context {float : Type}.
Variable pow_half : Z → result float.
Variable float_eq float_lt : float → float → bool.

(** X6. The distance is symmetric, errors included: with its arguments
    swapped [euclidean_distance] returns the same number or raises the
    same exception. *)
Theorem euclidean_distance_sym p1 p2 :
  euclidean_distance pow_half p1 p2 = euclidean_distance pow_half p2 p1.
Proof.
  unfold euclidean_distance, getitem.
  destruct (p1 !! 0), (p2 !! 0), (p1 !! 1), (p2 !! 1), (p1 !! 2), (p2 !! 2);
    cbn; try done.
  f_equal. ring.
Qed.

Lemma euclidean_distance_short p1 p2 :
  length p1 < 3 ∨ length p2 < 3 →
  euclidean_distance pow_half p1 p2 = Raise IndexError.
Proof.
  intros Hshort. unfold euclidean_distance, getitem.
  destruct (p1 !! 0) eqn:H10; [|done]. cbn.
  destruct (p2 !! 0) eqn:H20; [|done]. cbn.
  destruct (p1 !! 1) eqn:H11; [|done]. cbn.
  destruct (p2 !! 1) eqn:H21; [|done]. cbn.
  destruct (p1 !! 2) eqn:H12; [|done]. cbn.
  destruct (p2 !! 2) eqn:H22; [|done]. cbn.
  apply lookup_lt_Some in H12, H22. lia.
Qed.

(** X7. [euclidean_distance] returns only for two points of at least three
    coordinates each, and what it returns is [z ** 0.5] for an integer
    [z ≥ 0]: the power is never taken of a negative number. *)
Theorem euclidean_distance_radicand p1 p2 d :
  euclidean_distance pow_half p1 p2 = Ok d →
  3 ≤ length p1 ∧ 3 ≤ length p2 ∧
  ∃ z, (0 ≤ z)%Z ∧ pow_half z = Ok d.
Proof.
  intros Hd.
  destruct (decide (length p1 < 3 ∨ length p2 < 3)) as [Hshort|Hlong].
  { by rewrite euclidean_distance_short in Hd. }
  split_and!; [lia..|].
  unfold euclidean_distance, getitem in Hd.
  destruct (p1 !! 0) as [a0|]; [|done]. cbn in Hd.
  destruct (p2 !! 0) as [b0|]; [|done]. cbn in Hd.
  destruct (p1 !! 1) as [a1|]; [|done]. cbn in Hd.
  destruct (p2 !! 1) as [b1|]; [|done]. cbn in Hd.
  destruct (p1 !! 2) as [a2|]; [|done]. cbn in Hd.
  destruct (p2 !! 2) as [b2|]; [|done]. cbn in Hd.
  eexists. split; [|exact Hd]. nia.
Qed.

Lemma ranked_edges_length coordinates es :
  ranked_edges pow_half float_eq float_lt coordinates = Ok es →
  length es = length (index_pairs (length coordinates)).
Proof.
  intros [Hperm _]%ranked_edges_spec.
  apply Permutation_length in Hperm. by rewrite length_fmap in Hperm.
Qed.

(** X8. The number of candidate edges: [n] points give [n (n - 1) / 2]
    ranked edges. *)
Theorem ranked_edges_count coordinates es :
  ranked_edges pow_half float_eq float_lt coordinates = Ok es →
  2 * length es = length coordinates * (length coordinates - 1).
Proof.
  intros Hlen%ranked_edges_length. rewrite Hlen. apply length_index_pairs.
Qed.

(** X9. [part1] returns a value only on an input of at least 46 points (so
    that there are 1000 pairs), and the value is then at least 1. *)
Theorem part1_needs_46_points data v :
  part1 pow_half float_eq float_lt data = Ok v →
  ∃ coordinates,
    parse_coordinates data = Ok coordinates ∧
    46 ≤ length coordinates ∧ 1 ≤ v.
Proof.
  intros Hv. pose proof Hv as Hv'. unfold part1 in Hv'.
  destruct (parse_coordinates data) as [coordinates|] eqn:Hparse; [|done].
  cbn [mbind result_bind] in Hv'.
  destruct (ranked_edges pow_half float_eq float_lt coordinates)
    as [es|] eqn:Hranked; [|done].
  clear Hv'. exists coordinates. split; [done|].
  destruct (part1_unfold _ _ _ _ _ _ Hparse Hranked)
    as (ds & m & rt & Hu & Hloop & Hwf & Hl & Hconn & Hpart1).
  rewrite Hv in Hpart1. symmetry in Hpart1.
  assert (H3 : 3 ≤ length (root_sizes ds)).
  { destruct (decide (3 ≤ length (root_sizes ds))); [done|].
    rewrite product_of_three_largest_short in Hpart1 by lia. done. }
  split.
  - pose proof (length_index_pairs (length coordinates)) as Hcount.
    rewrite <- (ranked_edges_length _ _ Hranked) in Hcount.
    assert (Hedges : 1000 ≤ length es).
    { destruct (decide (1000 ≤ length es)); [done|]. exfalso.
      rewrite take_ge in Hconn by lia.
      assert (length (roots ds) ≤ 1); [|unfold root_sizes in H3;
        rewrite length_fmap in H3; lia].
      apply (roots_le_1 rt); [done|]. rewrite Hl. intros a b Hab.
      apply (ranked_edges_pairs _ _ _ _ _ Hranked) in Hab
        as (e & He & <- & <-).
      by apply Hconn. }
    destruct (decide (46 ≤ length coordinates)); [done|]. nia.
  - destruct (product_of_three_largest_spec _ H3)
      as (a & b & c & rest & Hperm & _ & _ & _ & Hprod).
    rewrite Hprod in Hpart1. simplify_eq.
    pose proof (root_sizes_pos rt ds Hwf) as Hpos.
    rewrite Hperm in Hpos.
    apply Forall_cons in Hpos as [Ha Hpos].
    apply Forall_cons in Hpos as [Hb Hpos].
    apply Forall_cons in Hpos as [Hc _]. nia.
Qed.

(** X10. A point with fewer than three coordinates, which the loader
    accepts, makes both drivers raise as soon as there are two points:
    neither returns a value. *)
Theorem short_point_raises data coordinates c :
  parse_coordinates data = Ok coordinates →
  2 ≤ length coordinates → c ∈ coordinates → length c < 3 →
  ∃ e, part1 pow_half float_eq float_lt data = Raise e ∧
       part2 pow_half float_eq float_lt data = Raise e.
Proof.
  intros Hparse Hn [k Hk]%list_elem_of_lookup_1 Hc.
  pose proof (lookup_lt_Some _ _ _ Hk) as Hkn.
  set (j := if decide (k = 0) then 1 else k).
  assert (Hij : 0 < j < length coordinates).
  { unfold j. case_decide; lia. }
  destruct (lookup_lt_is_Some_2 coordinates 0) as [ci Hi]; [lia|].
  destruct (lookup_lt_is_Some_2 coordinates j) as [cj Hj]; [lia|].
  assert (Hshort : length ci < 3 ∨ length cj < 3).
  { unfold j in *. case_decide; simplify_eq; [left|right]; congruence. }
  assert (Hall : ∃ e, all_distances pow_half coordinates = Raise e).
  { unfold all_distances.
    eapply (comprehension_Raise _ _ (0, j)).
    - by apply elem_of_index_pairs.
    - cbn. rewrite (getitem_Ok _ _ _ Hi). cbn.
      rewrite (getitem_Ok _ _ _ Hj). cbn.
      by rewrite euclidean_distance_short. }
  destruct Hall as [e Hall]. exists e.
  unfold part1, part2, ranked_edges. rewrite Hparse. cbn [mbind result_bind].
  by rewrite Hall.
Qed.
End distance_facts.

Lemma euclidean_distance_radicand_witness :
  3 ≤ length [0; 0; 0]%Z ∧ 3 ≤ length [1; 2; 2]%Z ∧
  ∃ z, (0 ≤ z)%Z ∧ exact_pow_half z = Ok 9%Z.
Proof.
  apply (euclidean_distance_radicand exact_pow_half [0; 0; 0]%Z [1; 2; 2]%Z).
  vm_compute. reflexivity.
Defined.

Lemma ranked_edges_count_witness :
  ∃ es, ranked_edges exact_pow_half Z.eqb Z.ltb square_input = Ok es ∧
        2 * length es = length square_input * (length square_input - 1).
Proof.
  eexists. split; [vm_compute; reflexivity|].
  apply (ranked_edges_count exact_pow_half Z.eqb Z.ltb).
  vm_compute. reflexivity.
Defined.

Lemma part1_needs_46_points_witness :
  ∃ coordinates,
    parse_coordinates row_and_two_input = Ok coordinates ∧
    46 ≤ length coordinates ∧ 1 ≤ 46.
Proof.
  apply (part1_needs_46_points exact_pow_half Z.eqb Z.ltb).
  vm_compute. reflexivity.
Defined.

Lemma short_point_raises_witness :
  ∃ e, part1_exact short_line_input = Raise e ∧
       part2_exact short_line_input = Raise e.
Proof.
  apply (short_point_raises exact_pow_half Z.eqb Z.ltb short_line_input
           [[1; 2]; [3; 4; 5]]%Z [1; 2]%Z).
  - vm_compute. reflexivity.
  - cbn. lia.
  - apply list_elem_of_here.
  - cbn. lia.
Defined.

(** X11. The product of the three largest sizes does not depend on the
    order in which the sizes were collected. *)
Theorem product_of_three_largest_perm l l' :
  l ≡ₚ l' → product_of_three_largest l = product_of_three_largest l'.
Proof.
  intros Hperm. unfold product_of_three_largest.
  assert (sort_reverse Nat.ltb l = sort_reverse Nat.ltb l') as ->; [|done].
  apply (StronglySorted_unique_strong ge).
  - intros a b _ _ ??. lia.
  - apply sort_reverse_nat_sorted.
  - apply sort_reverse_nat_sorted.
  - by rewrite !sort_reverse_perm.
Qed.

Lemma product_of_three_largest_perm_witness :
  product_of_three_largest [2; 5; 1; 3] = product_of_three_largest [5; 2; 1; 3].
Proof. apply product_of_three_largest_perm, perm_swap. Defined.

(** * Further properties of the loader *)

Local Open Scope char_scope.

Lemma is_linebreak_lf : is_linebreak "010" = true.
Proof. by vm_compute. Qed.

Lemma append_cons a (s t : string) : String a s +:+ t = String a (s +:+ t).
Proof. done. Qed.

Lemma splitlines_from_cr_lf cur s :
  splitlines_from cur (String "013" (String "010" s))
  = line_of cur :: splitlines_from [] s.
Proof. done. Qed.

Lemma splitlines_from_cr_other cur s :
  (∀ s', s ≠ String "010" s') →
  splitlines_from cur (String "013" s) = line_of cur :: splitlines_from [] s.
Proof.
  intros Hs. destruct s as [|c s']; [done|].
  destruct (decide (c = "010")) as [->|Hc]; [by destruct (Hs s')|].
  destruct c as [[] [] [] [] [] [] [] []]; try done.
Qed.

Lemma splitlines_from_other cur a s :
  a ≠ "013" →
  splitlines_from cur (String a s)
  = if is_linebreak a then line_of cur :: splitlines_from [] s
    else splitlines_from (a :: cur) s.
Proof. intros Ha. cbn [splitlines_from]. by rewrite bool_decide_false. Qed.

Lemma blank_line_in_splitlines pre post cur :
  EmptyString ∈ splitlines_from cur (pre +:+ String "010" (String "010" post)).
Proof.
  remember (String.length pre) as n eqn:Hn. revert pre Hn cur.
  induction n as [n IH] using lt_wf_ind. intros pre -> cur.
  destruct pre as [|a pre].
  { change (EmptyString +:+ ?s) with s.
    rewrite splitlines_from_other by done. rewrite is_linebreak_lf.
    rewrite splitlines_from_other by done. rewrite is_linebreak_lf.
    apply list_elem_of_further, list_elem_of_here. }
  rewrite append_cons. destruct (decide (a = "013")) as [->|Ha].
  - destruct pre as [|b pre'].
    + change (EmptyString +:+ ?s) with s. rewrite splitlines_from_cr_lf.
      rewrite splitlines_from_other by done. rewrite is_linebreak_lf.
      apply list_elem_of_further, list_elem_of_here.
    + rewrite append_cons. destruct (decide (b = "010")) as [->|Hb].
      * rewrite splitlines_from_cr_lf. apply list_elem_of_further.
        apply (IH (String.length pre')); [cbn; lia|done].
      * rewrite splitlines_from_cr_other by (intros s' [= ? _]; done).
        apply list_elem_of_further. rewrite <- append_cons.
        apply (IH (String.length (String b pre'))); [cbn; lia|done].
  - rewrite splitlines_from_other by done.
    destruct (is_linebreak a); [apply list_elem_of_further|];
      (apply (IH (String.length pre)); [cbn; lia|done]).
Qed.

Lemma final_newline_splitlines s c cur :
  is_linebreak c = false →
  splitlines_from cur (s +:+ String c (String "010" EmptyString))
  = splitlines_from cur (s +:+ String c EmptyString).
Proof.
  intros Hc.
  assert (Hcr : c ≠ "013") by (by intros ->).
  assert (Hlf : c ≠ "010") by (by intros ->).
  remember (String.length s) as n eqn:Hn. revert s Hn cur.
  induction n as [n IH] using lt_wf_ind. intros s -> cur.
  destruct s as [|a s].
  { change (EmptyString +:+ ?s) with s.
    rewrite !(splitlines_from_other _ c) by done. rewrite Hc.
    rewrite splitlines_from_other by done. by rewrite is_linebreak_lf. }
  rewrite !append_cons. destruct (decide (a = "013")) as [->|Ha].
  - destruct s as [|b s'].
    + change (EmptyString +:+ ?s) with s.
      rewrite !splitlines_from_cr_other by (intros s' [= ? _]; done).
      f_equal. apply (IH 0 ltac:(cbn; lia) EmptyString eq_refl).
    + rewrite !append_cons. destruct (decide (b = "010")) as [->|Hb].
      * rewrite !splitlines_from_cr_lf. f_equal.
        by apply (IH (String.length s')); [cbn; lia|].
      * rewrite !splitlines_from_cr_other by (intros s'' [= ? _]; done).
        f_equal. rewrite <- !append_cons.
        by apply (IH (String.length (String b s'))); [cbn; lia|].
  - rewrite !(splitlines_from_other _ a) by done.
    destruct (is_linebreak a); [f_equal|];
      by apply (IH (String.length s)); [cbn; lia|].
Qed.

Lemma split_from_nonempty sep cur s : split_from sep cur s ≠ [].
Proof.
  revert cur. induction s as [|a s IH]; intros cur; cbn; [done|].
  case_bool_decide; [done|apply IH].
Qed.

(** X12. The loader raises nothing but [ValueError]. *)
Theorem parse_coordinates_only_ValueError data e :
  parse_coordinates data = Raise e → e = ValueError.
Proof.
  intros (line & _ & Hline)%comprehension_Raise_inv.
  by apply comprehension_int_Raise in Hline.
Qed.

(** X13. An empty line anywhere in the input (two line feeds in a row)
    makes the loader raise [ValueError]. *)
Theorem parse_coordinates_blank_line pre post :
  parse_coordinates (pre +:+ String "010" (String "010" post))
  = Raise ValueError.
Proof.
  destruct (comprehension_Raise
              (λ line, comprehension int (split line ","))
              (splitlines (pre +:+ String "010" (String "010" post)))
              EmptyString ValueError) as [e He].
  - apply blank_line_in_splitlines.
  - done.
  - unfold parse_coordinates. rewrite He. f_equal.
    apply comprehension_Raise_inv in He as (line & _ & He).
    by apply comprehension_int_Raise in He.
Qed.

(** X14. A line feed after the last line changes nothing: when the input
    does not end in a line boundary, adding a final line feed gives the
    same result. *)
Theorem parse_coordinates_final_newline data c :
  is_linebreak c = false →
  parse_coordinates (data +:+ String c (String "010" EmptyString))
  = parse_coordinates (data +:+ String c EmptyString).
Proof.
  intros Hc. unfold parse_coordinates, splitlines.
  by rewrite final_newline_splitlines.
Qed.

(** X15. The shape of what the loader returns: one tuple per line, each
    with as many integers as its line has comma-separated fields, and so
    at least one. *)
Theorem parse_coordinates_shape data coordinates :
  parse_coordinates data = Ok coordinates →
  Forall2 (λ line c, length c = length (split line ",") ∧ 1 ≤ length c)
          (splitlines data) coordinates.
Proof.
  intros H%comprehension_Ok.
  eapply Forall2_impl; [exact H|]. cbn. intros line c Hc%comprehension_Ok.
  apply Forall2_length in Hc.
  pose proof (split_from_nonempty "," [] line) as Hne.
  unfold split in *. destruct (split_from "," [] line); [done|].
  cbn in *. lia.
Qed.

Local Close Scope char_scope.

Lemma parse_coordinates_only_ValueError_witness :
  ValueError = ValueError.
Proof.
  apply (parse_coordinates_only_ValueError "1,a" ValueError).
  vm_compute. reflexivity.
Defined.

Lemma parse_coordinates_final_newline_witness :
  parse_coordinates "1,2,3
4,5,6
" = parse_coordinates "1,2,3
4,5,6".
Proof.
  apply (parse_coordinates_final_newline "1,2,3
4,5," "6"%char).
  vm_compute. reflexivity.
Defined.

Lemma parse_coordinates_shape_witness :
  Forall2 (λ line c, length c = length (split line ","%char) ∧ 1 ≤ length c)
          (splitlines short_line_input) [[1; 2]; [3; 4; 5]]%Z.
Proof.
  apply (parse_coordinates_shape short_line_input).
  vm_compute. reflexivity.
Defined.

(** * The sets of the structure and the graph of the edges *)

Lemma rtsc_sub {A} (R R' : relation A) u v :
  (∀ a b, R a b → rtsc R' a b) → rtsc R u v → rtsc R' u v.
Proof.
  intros Hsub. induction 1 as [|a b c [Hab|Hba] _ IH]; [done|..].
  - etrans; [by apply Hsub|done].
  - etrans; [symmetry; by apply Hsub|done].
Qed.

Lemma rtsc_invariant {A B} (R : relation A) (f : A → B) u v :
  (∀ a b, R a b → f a = f b) → rtsc R u v → f u = f v.
Proof.
  intros Hinv. induction 1 as [|a b c [Hab|Hba] _ IH]; [done|..].
  - by rewrite (Hinv _ _ Hab).
  - by rewrite <- (Hinv _ _ Hba).
Qed.

(** One [union] call, seen from the roots, both ways: two indices have the
    same root afterwards exactly when they had before, or one had the root
    of [x] and the other the root of [y]. *)
Lemma union_step_roots rt ds x y :
  wf_with rt ds → x < length (parent ds) → y < length (parent ds) →
  ∃ ds' b rt',
    union ds x y = Ok (ds', b) ∧
    wf_with rt' ds' ∧
    length (parent ds') = length (parent ds) ∧
    (∀ u v, rt' u = rt' v ↔
            rt u = rt v ∨ (rt u = rt x ∧ rt v = rt y) ∨
            (rt u = rt y ∧ rt v = rt x)) ∧
    length (roots ds') + (if b then 1 else 0) = length (roots ds).
Proof.
  intros Hwf Hx Hy.
  destruct (union_spec rt ds x y Hwf Hx Hy) as (p2 & Hl & Hiff & Hwf2 & Hcase).
  assert (Hroots : roots (set_parent ds p2) = roots ds).
  { symmetry. apply roots_same; [done|]. by apply same_paths_same_roots. }
  case_decide as Heq.
  - exists (set_parent ds p2), false, rt. split_and!; try done.
    + intros u v. split; [by left|]. intros [?|[[? ?]|[? ?]]]; congruence.
    + rewrite Hroots. lia.
  - destruct Hcase as [Hu Hwf'].
    set (big := (pick ds (rt x) (rt y)).1) in *.
    set (small := (pick ds (rt x) (rt y)).2) in *.
    assert (Hpick : (big = rt x ∧ small = rt y) ∨ (big = rt y ∧ small = rt x)).
    { unfold big, small, pick. case_decide; cbn; tauto. }
    assert (Hbs : big ≠ small) by (destruct Hpick as [[-> ->]|[-> ->]]; done).
    assert (Hsmall : p2 !! small = Some small).
    { apply (same_paths_same_roots _ _ Hiff).
      destruct Hpick as [[_ ->]|[_ ->]]; by apply (wf_rt_is_root rt). }
    exists (link ds p2 big small), true, (relink rt big small).
    split_and!; try done.
    + cbn. rewrite length_insert. done.
    + intros u v. unfold relink.
      destruct Hpick as [[-> ->]|[-> ->]]; repeat case_decide;
        split; intros; intuition congruence.
    + rewrite <- Hroots. by apply roots_link.
Qed.

Lemma unions_connectivity_gen {float} rt ds (es : list (@edge float)) :
  wf_with rt ds → in_range (length (parent ds)) es →
  ∃ ds' m rt',
    unions es ds = Ok (ds', m) ∧
    wf_with rt' ds' ∧
    length (parent ds') = length (parent ds) ∧
    (∀ u v, rt' u = rt' v ↔
            rtsc (λ a b, rt a = rt b ∨ joined es a b) u v) ∧
    length (roots ds') + m = length (roots ds).
Proof.
  revert rt ds. induction es as [|[[d x] y] es IH]; intros rt ds Hwf Hin.
  { exists ds, 0, rt. split_and!; try done; try lia.
    intros u v. split.
    - intros Huv. apply rtsc_lr. by left.
    - apply rtsc_invariant. intros a b [?|[d' Hd]]; [done|].
      by apply not_elem_of_nil in Hd. }
  destruct (Hin (d, x, y) (list_elem_of_here _ _)) as [Hx Hy].
  cbn in Hx, Hy.
  destruct (union_step_roots rt ds x y Hwf Hx Hy)
    as (ds1 & b & rt1 & Hu & Hwf1 & Hl1 & Hiff1 & Hroots1).
  destruct (IH rt1 ds1 Hwf1)
    as (ds2 & m & rt2 & Hus & Hwf2 & Hl2 & Hiff2 & Hroots2).
  { rewrite Hl1. intros e He. apply Hin. by right. }
  exists ds2, (if b then S m else m), rt2. cbn. rewrite Hu. cbn.
  rewrite Hus. cbn. split_and!; try done.
  - lia.
  - intros u v. rewrite Hiff2. split; apply rtsc_sub; intros a c [H|[d' H]].
    + apply Hiff1 in H as [H|[[Ha Hc]|[Ha Hc]]].
      * apply rtsc_lr. by left.
      * etrans; [apply rtsc_lr; left; exact Ha|].
        etrans; [apply rtsc_lr; right; exists d; left|].
        apply rtsc_lr. by left.
      * etrans; [apply rtsc_lr; left; exact Ha|].
        etrans; [apply rtsc_rl; right; exists d; left|].
        apply rtsc_lr. by left.
    + apply rtsc_lr. right. exists d'. by right.
    + apply rtsc_lr. left. apply Hiff1. by left.
    + apply elem_of_cons in H as [[= -> -> ->]|H].
      * apply rtsc_lr. left. apply Hiff1. right. by left.
      * apply rtsc_lr. right. by exists d'.
  - destruct b; lia.
Qed.

Lemma rtsc_joined_id {float} (es : list (@edge float)) u v :
  rtsc (λ a b, id a = id b ∨ joined es a b) u v ↔ rtsc (joined es) u v.
Proof.
  split; apply rtsc_sub.
  - intros a b [H|H]; [|by apply rtsc_lr]. unfold id in H. by subst.
  - intros a b H. apply rtsc_lr. by right.
Qed.

(** X16. Union-find computes connectivity.  Whatever edges (with endpoints
    below [n]) are driven into a fresh [DisjointSet(n)], afterwards two
    indices have the same root exactly when a chain of those edges links
    them. *)
Theorem unions_connectivity {float} (es : list (@edge float)) n :
  in_range n es →
  ∃ ds m,
    unions es (DisjointSet_init n) = Ok (ds, m) ∧
    ∀ u v, u < n → v < n →
      (find_root ds u = find_root ds v ↔ rtsc (joined es) u v).
Proof.
  intros Hin.
  destruct (unions_connectivity_gen id (DisjointSet_init n) es (wf_init n))
    as (ds & m & rt & Hu & Hwf & Hl & Hiff & _).
  { cbn. by rewrite length_seq. }
  cbn in Hl. rewrite length_seq in Hl.
  exists ds, m. split; [done|]. intros u v Hu' Hv'.
  rewrite !(find_root_spec rt ds) by (done || lia).
  rewrite <- rtsc_joined_id, <- Hiff. split; congruence.
Qed.

Lemma unions_connectivity_witness :
  ∃ ds m,
    unions three_edges (DisjointSet_init 4) = Ok (ds, m) ∧
    ∀ u v, u < 4 → v < 4 →
      (find_root ds u = find_root ds v ↔ rtsc (joined three_edges) u v).
Proof.
  apply (unions_connectivity three_edges 4).
  intros e He. unfold three_edges in He.
  repeat (apply elem_of_cons in He as [->|He]; [cbn; lia|]).
  by apply not_elem_of_nil in He.
Defined.

Lemma roots_all_equal rt ds u v :
  wf_with rt ds → length (roots ds) ≤ 1 →
  u < length (parent ds) → v < length (parent ds) → rt u = rt v.
Proof.
  intros Hwf Hlen Hu Hv.
  assert (Hin : ∀ z, z < length (parent ds) → rt z ∈ roots ds).
  { intros z Hz. apply list_elem_of_filter. split.
    - by apply (wf_rt_is_root rt).
    - apply elem_of_seq. pose proof (wf_rt_lt rt ds z Hwf Hz). lia. }
  pose proof (Hin u Hu) as Hru. pose proof (Hin v Hv) as Hrv.
  destruct (roots ds) as [|r [|r' l]]; cbn in Hlen; [|..|lia].
  - by apply not_elem_of_nil in Hru.
  - apply list_elem_of_singleton in Hru, Hrv. congruence.
Qed.

Lemma joined_app_l {float} (es es' : list (@edge float)) a b :
  joined es a b → joined (es ++ es') a b.
Proof. intros [d Hd]. exists d. apply elem_of_app. by left. Qed.

Lemma count_root_find_root rt ds n r :
  wf_with rt ds → length (parent ds) = n →
  count_root rt n r
  = length (filter (λ x, find_root ds x = Some r) (seq 0 n)).
Proof.
  intros Hwf Hn. unfold count_root. f_equal. apply filter_ext_in.
  intros x Hx%elem_of_seq.
  rewrite (find_root_spec rt ds x Hwf) by lia. split; congruence.
Qed.

Section graph_claims.

Context {float : Type}.
Variable pow_half : Z → result float.
Variable float_eq float_lt : float → float → bool.

(** X17. What [part2] returns, in terms of the graph alone: for at least
    two points, the ranked edges split as [pre ++ (d, x, y) :: post] where
    the edges of [pre] do not link all the points, those of [pre] together
    with [(d, x, y)] do, and the value is the product of the first
    coordinates of the points [x] and [y]. *)
Theorem part2_first_connecting_edge data coordinates es :
  parse_coordinates data = Ok coordinates →
  ranked_edges pow_half float_eq float_lt coordinates = Ok es →
  2 ≤ length coordinates →
  ∃ pre d x y post cx cy x0 y0,
    es = pre ++ (d, x, y) :: post ∧
    ¬ all_joined (length coordinates) pre ∧
    all_joined (length coordinates) (pre ++ [(d, x, y)]) ∧
    coordinates !! x = Some cx ∧ cx !! 0 = Some x0 ∧
    coordinates !! y = Some cy ∧ cy !! 0 = Some y0 ∧
    part2 pow_half float_eq float_lt data = Ok (x0 * y0)%Z.
Proof.
  intros Hparse Hranked Hn.
  pose proof (ranked_edges_in_range _ _ _ _ _ Hranked) as Hin.
  destruct (ranked_edges_spec _ _ _ _ _ Hranked) as [_ Hedges].
  assert (Hroots : length (roots (DisjointSet_init (length coordinates)))
                   = length coordinates).
  { by rewrite roots_init, length_seq. }
  assert (Hlen : length (parent (DisjointSet_init (length coordinates)))
                 = length coordinates).
  { cbn. by rewrite length_seq. }
  destruct (connect_all_spec pow_half coordinates id
              (DisjointSet_init (length coordinates)) es
              (wf_init (length coordinates)) Hlen Hin Hedges)
    as [(pre & d & x & y & post & ds & m & ds' & cx & cy & x0 & y0
         & -> & Hpre & Hr2 & Hu & Hcx & Hx0 & Hcy & Hy0 & Hres)
       |(ds' & m & rt' & Hus & Hwf' & Hl' & _ & Hconn & Hr' & _)].
  { lia. }
  2:{ exfalso. enough (length (roots ds') ≤ 1) by lia.
      apply (roots_le_1 rt'); [done|]. rewrite Hl', Hlen.
      intros u v Huv.
      apply (ranked_edges_pairs _ _ _ _ _ Hranked) in Huv
        as (e & He & <- & <-).
      by apply Hconn. }
  assert (Hin_pre : in_range
            (length (parent (DisjointSet_init (length coordinates)))) pre).
  { rewrite Hlen. intros e He. apply Hin, elem_of_app. by left. }
  destruct (unions_connectivity_gen id
              (DisjointSet_init (length coordinates)) pre
              (wf_init (length coordinates)) Hin_pre)
    as (ds1 & m1 & rt1 & Hu1 & Hwf1 & Hl1 & Hiff1 & _).
  rewrite Hpre in Hu1. simplify_eq. rewrite Hlen in Hl1.
  destruct (Hin (d, x, y)) as [Hx Hy].
  { apply elem_of_app. right. left. }
  cbn in Hx, Hy.
  destruct (union_step_roots rt1 ds1 x y Hwf1)
    as (ds2 & b & rt2 & Hu2 & Hwf2 & Hl2 & Hiff2 & Hcount); [lia..|].
  rewrite Hu in Hu2. simplify_eq.
  exists pre, d, x, y, post, cx, cy, x0, y0. split_and!; try done.
  - intros Hall. enough (length (roots ds1) ≤ 1) by lia.
    apply (roots_le_1 rt1); [done|]. rewrite Hl1. intros u v Huv.
    apply Hiff1, rtsc_joined_id, Hall; lia.
  - intros u v Hu' Hv'.
    assert (Heq : rt2 u = rt2 v).
    { apply (roots_all_equal rt2 ds2); [done|lia..]. }
    assert (Hmono : ∀ a b, rt1 a = rt1 b →
              rtsc (joined (pre ++ [(d, x, y)])) a b).
    { intros a b Hab%Hiff1%rtsc_joined_id.
      eapply rtsc_sub; [|exact Hab].
      intros a' b' H'. by apply rtsc_lr, joined_app_l. }
    assert (Hxy : rtsc (joined (pre ++ [(d, x, y)])) x y).
    { apply rtsc_lr. exists d. apply elem_of_app. right. left. }
    apply Hiff2 in Heq as [H|[[Ha Hb]|[Ha Hb]]].
    + by apply Hmono.
    + etrans; [by apply Hmono|]. etrans; [exact Hxy|].
      apply Hmono. congruence.
    + etrans; [by apply Hmono|]. etrans; [symmetry; exact Hxy|].
      apply Hmono. congruence.
  - unfold part2. rewrite Hparse. cbn [mbind result_bind].
    rewrite Hranked. cbn [mbind result_bind].
    rewrite Hroots in Hres. by rewrite Hres.
Qed.

(** X18. What [part1] computes, in terms of the graph alone: the state it
    reads the sizes from has the same root for two points exactly when a
    chain of the first 1000 ranked edges links them, the size it reads at
    a root is the number of points with that root, and its result (or
    error) is that of the product of the three largest of those sizes. *)
Theorem part1_component_sizes data coordinates es :
  parse_coordinates data = Ok coordinates →
  ranked_edges pow_half float_eq float_lt coordinates = Ok es →
  ∃ ds m,
    unions (take 1000 es) (DisjointSet_init (length coordinates))
      = Ok (ds, m) ∧
    (∀ u v, u < length coordinates → v < length coordinates →
       (find_root ds u = find_root ds v ↔
        rtsc (joined (take 1000 es)) u v)) ∧
    root_sizes ds
      = (λ r, length (filter (λ x, find_root ds x = Some r)
                             (seq 0 (length coordinates)))) <$> roots ds ∧
    part1 pow_half float_eq float_lt data
      = product_of_three_largest (root_sizes ds).
Proof.
  intros Hparse Hranked.
  destruct (part1_unfold _ _ _ _ _ _ Hparse Hranked)
    as (ds & m & _ & Hu & _ & _ & _ & _ & Hpart1).
  destruct (unions_connectivity_gen id
              (DisjointSet_init (length coordinates)) (take 1000 es)
              (wf_init (length coordinates)))
    as (ds1 & m1 & rt & Hu1 & Hwf & Hl & Hiff & _).
  { cbn. rewrite length_seq. intros e He.
    apply (ranked_edges_in_range _ _ _ _ _ Hranked).
    by apply (subseteq_take 1000 es). }
  rewrite Hu in Hu1. simplify_eq. cbn in Hl. rewrite length_seq in Hl.
  exists ds1, m1. split_and!; try done.
  - intros u v Hu' Hv'.
    rewrite !(find_root_spec rt ds1) by (done || lia).
    rewrite <- rtsc_joined_id, <- Hiff. split; congruence.
  - unfold root_sizes. apply list_fmap_ext.
    intros i r [Hr _]%list_elem_of_lookup_2%list_elem_of_filter.
    rewrite (wf_size_count rt ds1 Hwf r Hr), Hl.
    by apply count_root_find_root.
Qed.
End graph_claims.

Lemma part2_first_connecting_edge_witness :
  ∃ x0 y0 : Z, part2_exact four_input = Ok (x0 * y0)%Z.
Proof.
  edestruct (part2_first_connecting_edge exact_pow_half Z.eqb Z.ltb
               four_input)
    as (pre & d & x & y & post & cx & cy & x0 & y0 & H).
  - vm_compute. reflexivity.
  - vm_compute. reflexivity.
  - vm_compute. lia.
  - exists x0, y0. apply H.
Defined.

Lemma part1_component_sizes_witness :
  ∃ ds, part1_exact row_and_two_input
        = product_of_three_largest (root_sizes ds).
Proof.
  edestruct (part1_component_sizes exact_pow_half Z.eqb Z.ltb
               row_and_two_input)
    as (ds & m & _ & _ & _ & H).
  - vm_compute. reflexivity.
  - vm_compute. reflexivity.
  - exists ds. exact H.
Defined.
